(** * Flappy Bird: the game loop of [main.go]

    A shallow embedding of the update / draw loop of the game and the
    properties of its state machine.

    - Go's [int] is taken as the 64-bit two's complement integer, carried by
      [Z] with the wrap-around written out ([GoInt]).
    - Go's [float64] is Rocq's primitive binary64 [float]; [+] and [<] are the
      IEEE operations the Go program runs.
    - The host (ebiten and math/rand) is an explicit per-tick environment
      [Env]: the keys held during the tick and the value [rand.Intn] returns.
    - [Update] returns [option Game]; [None] is a run-time panic
      (slice bounds out of range). *)

From Stdlib Require Import String DecimalString.
From Stdlib Require Import ZArith List Bool Lia Sorted.
From Stdlib Require Import Floats.
Import ListNotations.
Local Open Scope Z_scope.

(** ** Go integers *)

Module GoInt.

Definition minInt : Z := - 2 ^ 63.
Definition maxInt : Z := 2 ^ 63 - 1.

(** Two's complement wrap-around of a mathematical result. *)
Definition wrap (z : Z) : Z := (z + 2 ^ 63) mod 2 ^ 64 - 2 ^ 63.

Definition add (a b : Z) : Z := wrap (a + b).
Definition sub (a b : Z) : Z := wrap (a - b).

(** Go's [%] truncates towards zero: the sign follows the dividend. *)
Definition rem (a b : Z) : Z := Z.rem a b.

Definition inRange (z : Z) : Prop := minInt <= z <= maxInt.

End GoInt.

(** [float64(n)] for an [int] [n]: the nearest binary64 value, ties to even. *)
Definition float64 (n : Z) : float :=
  SF2Prim (binary_normalize prec emax n 0 false).

(** ** Constants (main.go, lines 16-23) *)

Definition screenWidth : Z := 640.
Definition screenHeight : Z := 630.
Definition birdSize : Z := 40.
Definition pillarWidth : Z := 200.
Definition pillarGap : Z := 200.
Definition pillarSpeed : Z := 3.

(** The untyped constant [0.1] as a float64. *)
Definition gravity : float := 0x1.999999999999ap-4%float.

(** ** Data model *)

(** [type Pillar struct { x, y int }] *)
Record Pillar : Type := mkPillar { x : Z; y : Z }.

(** [type Game struct].  The mutex [mu] is only taken by [Draw] and carries no
    game data.  [pillars] is a slice of pointers; every pointer comes from its
    own [NewPillar] call, so the slice is carried as the list of the pointees. *)
Record Game : Type := mkGame {
  birdY : float;
  birdDY : float;
  pillars : list Pillar;
  frameCount : Z;
  isGameOver : bool;
  score : Z;
  started : bool
}.

(** ** The host *)

Inductive Key : Type := KeySpace | KeyArrowUp | KeyEnter.

(** What the host answers during one tick: [ebiten.IsKeyPressed] (constant
    over the tick) and [rand.Intn]. *)
Record Env : Type := mkEnv {
  IsKeyPressed : Key -> bool;
  Intn : Z -> Z
}.

(** The contract of [rand.Intn]: a value in the half-open interval [0, n). *)
Definition rand_ok (e : Env) : Prop := forall n, 0 < n -> 0 <= Intn e n < n.

(** ** NewPillar (lines 138-145) *)

Definition NewPillar (e : Env) : Pillar :=
  let x0 := screenWidth in
  let y0 := Intn e (screenHeight - pillarGap - pillarWidth) in
  let y0 := if y0 <? 0 then 0 else y0 in
  {| x := x0; y := y0 |}.

(** ** Reset (lines 148-156) *)

Definition Reset (g : Game) : Game :=
  {| birdY := float64 (screenHeight / 2);
     birdDY := 0%float;
     pillars := [];
     frameCount := 0;
     isGameOver := false;
     score := 0;
     started := false |}.

(** ** The game built by main (lines 161-163): every field but [pillars] has
    Go's zero value. *)

Definition main_game : Game :=
  {| birdY := 0%float;
     birdDY := 0%float;
     pillars := [];
     frameCount := 0;
     isGameOver := false;
     score := 0;
     started := false |}.

(** ** Update (lines 48-93) *)

(** [ebiten.IsKeyPressed(ebiten.KeySpace) || ebiten.IsKeyPressed(ebiten.KeyArrowUp)] *)
Definition jump (e : Env) : bool :=
  IsKeyPressed e KeySpace || IsKeyPressed e KeyArrowUp.

(** [pillar.x -= pillarSpeed] on one pointee. *)
Definition advance (p : Pillar) : Pillar :=
  {| x := GoInt.sub (x p) pillarSpeed; y := y p |}.

(** [pillar.x < -pillarWidth], the removal test of line 74. *)
Definition passed (p : Pillar) : bool := x p <? - pillarWidth.

(** The collision test of lines 80-81 on one pillar:
    [birdY < float64(pillar.y) || birdY > float64(pillar.y+pillarGap)], then
    [pillar.x < birdSize && pillar.x > -pillarWidth]. *)
Definition outsideGap (pos : float) (p : Pillar) : bool :=
  (pos <? float64 (y p))%float || (float64 (GoInt.add (y p) pillarGap) <? pos)%float.

Definition inColumn (p : Pillar) : bool :=
  (x p <? birdSize) && (x p >? - pillarWidth).

(** State of the [range] loop of lines 72-85.  [range] evaluates [g.pillars]
    once; the loop visits every element of that slice, whatever happens to
    [g.pillars] meanwhile.  [cells] are the pointees already visited (and
    moved), in order; [g.pillars] is the ranged slice without its first [lo]
    elements, so that [g.pillars = g.pillars[1:]] is [lo := lo + 1]. *)
Record Loop : Type := mkLoop {
  cells : list Pillar;
  lo : nat;
  lscore : Z;
  lover : bool
}.

(** One iteration; [n] is the length of the ranged slice. *)
Definition loopBody (n : nat) (pos : float) (p : Pillar) (s : Loop) : option Loop :=
  let p := advance p in
  match
    (if passed p then
       (* g.pillars[1:] panics on an empty g.pillars *)
       if (lo s <? n)%nat then Some (S (lo s), GoInt.add (lscore s) 1)
       else None
     else Some (lo s, lscore s))
  with
  | None => None
  | Some (lo', score') =>
      let over' :=
        if outsideGap pos p then
          if inColumn p then true else lover s
        else lover s in
      Some {| cells := cells s ++ [p]; lo := lo'; lscore := score'; lover := over' |}
  end.

Fixpoint rangePillars (n : nat) (pos : float) (todo : list Pillar) (s : Loop)
  : option Loop :=
  match todo with
  | [] => Some s
  | p :: todo' =>
      match loopBody n pos p s with
      | None => None
      | Some s' => rangePillars n pos todo' s'
      end
  end.

(** Lines 57-63: gravity, jump impulse, integration. *)
Definition newDY (e : Env) (g : Game) : float :=
  let dy := (birdDY g + gravity)%float in
  if jump e then (-2)%float else dy.

Definition newY (e : Env) (g : Game) : float := (birdY g + newDY e g)%float.

(** Lines 66-69: the frame counter and the spawn. *)
Definition newFrame (g : Game) : Z := GoInt.add (frameCount g) 1.

Definition spawns (g : Game) : bool :=
  GoInt.rem (newFrame g) (screenWidth / pillarSpeed) =? 0.

Definition spawned (e : Env) (g : Game) : list Pillar :=
  if spawns g then pillars g ++ [NewPillar e] else pillars g.

(** The body of [if g.started && !g.isGameOver] (lines 56-85). *)
Definition playing (e : Env) (g : Game) : option Game :=
  let dy := newDY e g in
  let pos := newY e g in
  let fc := newFrame g in
  let ps := spawned e g in
  match
    rangePillars (length ps) pos ps
      {| cells := []; lo := 0; lscore := score g; lover := isGameOver g |}
  with
  | None => None
  | Some s =>
      Some {| birdY := pos;
              birdDY := dy;
              pillars := skipn (lo s) (cells s);
              frameCount := fc;
              isGameOver := lover s;
              score := lscore s;
              started := started g |}
  end.

(** Lines 49-53. *)
Definition start (e : Env) (g : Game) : Game :=
  if negb (isGameOver g) && negb (started g) then
    if jump e then
      {| birdY := birdY g; birdDY := birdDY g; pillars := pillars g;
         frameCount := frameCount g; isGameOver := isGameOver g;
         score := score g; started := true |}
    else g
  else g.

(** Lines 88-90. *)
Definition restart (e : Env) (g : Game) : Game :=
  if isGameOver g && IsKeyPressed e KeyEnter then Reset g else g.

Definition Update (e : Env) (g : Game) : option Game :=
  let g := start e g in
  match (if started g && negb (isGameOver g) then playing e g else Some g) with
  | None => None
  | Some g => Some (restart e g)
  end.

(** ** Draw (lines 96-130) *)

Inductive Image : Type := birdImage | pillarImage.

(** The translation part of [ebiten.GeoM]; [Draw] never touches the linear
    part.  [GeoM.Translate] adds to the translation. *)
Record GeoM : Type := mkGeoM { tx : float; ty : float }.

Definition geoM0 : GeoM := {| tx := 0%float; ty := 0%float |}.

Definition Translate (m : GeoM) (dx dy : float) : GeoM :=
  {| tx := (tx m + dx)%float; ty := (ty m + dy)%float |}.

(** What [Draw] asks of the screen, in order. *)
Inductive DrawOp : Type :=
| Fill (r g b a : Z)
| DrawImage (img : Image) (geo : GeoM)
| DebugPrint (msg : string).

Definition drawPillar (p : Pillar) : list DrawOp :=
  let op := Translate geoM0 (float64 (x p)) (float64 (y p)) in
  let op2 := Translate op 0%float (float64 pillarGap + float64 pillarWidth)%float in
  [DrawImage pillarImage op; DrawImage pillarImage op2].

Definition Draw (g : Game) : list DrawOp :=
  [Fill 75 145 201 1;
   DrawImage birdImage (Translate geoM0 50%float (birdY g))]
  ++ flat_map drawPillar (pillars g)
  ++ [DebugPrint ("Score: " ++ NilZero.string_of_int (Z.to_int (score g)))%string]
  ++ (if negb (started g) then [DebugPrint "Press Space or Up Arrow to Start"] else [])
  ++ (if isGameOver g then [DebugPrint "GAME OVER. Press Enter to Restart"] else []).

(** ** Runs *)

Fixpoint run (es : list Env) (g : Game) : option Game :=
  match es with
  | [] => Some g
  | e :: es' =>
      match Update e g with
      | None => None
      | Some g' => run es' g'
      end
  end.

(** The states the program can be in between two ticks. *)
Inductive reachable : Game -> Prop :=
| reach_main : reachable main_game
| reach_tick e g g' :
    reachable g -> rand_ok e -> Update e g = Some g' -> reachable g'.

(** The three states of the machine, read at the start of a tick. *)
Definition WAITING (g : Game) : Prop := started g = false /\ isGameOver g = false.
Definition PLAYING (g : Game) : Prop := started g = true /\ isGameOver g = false.
Definition OVER (g : Game) : Prop := isGameOver g = true.

(** Concrete hosts: the given keys held, [rand.Intn n] answering [r mod n]. *)
Definition host (space up enter : bool) (r : Z) : Env :=
  {| IsKeyPressed := fun k =>
       match k with KeySpace => space | KeyArrowUp => up | KeyEnter => enter end;
     Intn := fun n => r mod n |}.

(** ** What one tick computes, read off the slice before the loop *)

(** The pointees of the ranged slice after the loop: every one has moved. *)
Definition moved (e : Env) (g : Game) : list Pillar := map advance (spawned e g).

(** How many pillars went past the left edge during the tick. *)
Definition crossings (e : Env) (g : Game) : nat :=
  List.length (filter passed (moved e g)).

(** [k] times [g.score++]. *)
Fixpoint bump (k : nat) (sc : Z) : Z :=
  match k with
  | O => sc
  | S k' => bump k' (GoInt.add sc 1)
  end.

(** The bird is outside the gap of a pillar standing in its column. *)
Definition hit (pos : float) (p : Pillar) : bool := outsideGap pos p && inColumn p.

Definition collision (e : Env) (g : Game) : bool :=
  existsb (hit (newY e g)) (moved e g).

(** The state at line 87, after the body of the playing branch. *)
Definition played (e : Env) (g : Game) : Game :=
  {| birdY := newY e g;
     birdDY := newDY e g;
     pillars := skipn (crossings e g) (moved e g);
     frameCount := newFrame g;
     isGameOver := isGameOver g || collision e g;
     score := bump (crossings e g) (score g);
     started := started g |}.

(** The invariant of the pillar sequence: front to back the pillars stand at
    least one step apart, inside the band the loop keeps them in, with the gap
    offsets [rand.Intn] can give. *)
Definition spaced (p q : Pillar) : Prop := x p + pillarSpeed <= x q.

Definition onTrack (p : Pillar) : Prop :=
  - pillarWidth <= x p <= screenWidth - pillarSpeed /\
  0 <= y p < screenHeight - pillarGap - pillarWidth.

Record Inv (g : Game) : Prop := mkInv {
  inv_spaced : StronglySorted spaced (pillars g);
  inv_track : Forall onTrack (pillars g);
  inv_score : GoInt.inRange (score g);
  inv_frame : GoInt.inRange (frameCount g);
  inv_over : isGameOver g = true -> started g = true;
  inv_wait : started g = false ->
             pillars g = [] /\ frameCount g = 0 /\ score g = 0 /\
             birdDY g = 0%float /\
             (birdY g = 0%float \/ birdY g = float64 (screenHeight / 2))
}.

(** A pillar on its way: after the spawn, and after the move. *)
Definition onSpawn (p : Pillar) : Prop :=
  - pillarWidth <= x p <= screenWidth /\
  0 <= y p < screenHeight - pillarGap - pillarWidth.

Definition onMove (p : Pillar) : Prop :=
  - pillarWidth - pillarSpeed <= x p <= screenWidth - pillarSpeed /\
  0 <= y p < screenHeight - pillarGap - pillarWidth.

(** Sorted by horizontal position, the front pillar leftmost. *)
Definition leftOf (p q : Pillar) : Prop := x p < x q.

(** The claim of a collision, in the words of the collision rule: after the
    tick's movement the bird is strictly outside the gap band of some pillar
    whose horizontal position lies strictly between [-pillarWidth] and
    [birdSize]. *)
Definition collides (e : Env) (g : Game) : Prop :=
  exists p, In p (moved e g) /\
    ((newY e g <? float64 (y p))%float = true \/
     (float64 (GoInt.add (y p) pillarGap) <? newY e g)%float = true) /\
    - pillarWidth < x p < birdSize.

(** The same host with Enter released. *)
Definition withoutEnter (e : Env) : Env :=
  {| IsKeyPressed := fun k =>
       match k with KeyEnter => false | _ => IsKeyPressed e k end;
     Intn := Intn e |}.

(** [plays n k g g']: [n] consecutive ticks, each one started in the PLAYING
    state, lead from [g] to [g']; [k] of them appended a pillar. *)
Inductive plays : nat -> nat -> Game -> Game -> Prop :=
| plays_O g : plays O O g g
| plays_S n k e g g1 g' :
    PLAYING g -> rand_ok e -> Update e g = Some g1 -> plays n k g1 g' ->
    plays (S n) ((if spawns g then 1 else 0) + k) g g'.

(** ** Concrete runs

    [holdSpace]: Space is held from the first tick on.  [pilot i]: the keys of
    tick [i] of a run that starts with Space, falls for 58 ticks and then taps
    Space every 41 ticks; [rand.Intn] gives 0 for the first pillar and 100 for
    the second. *)
Definition holdSpace : Env := host true false false 100.
Definition spaceEnter : Env := host true false true 100.
Definition enterOnly : Env := host false false true 100.

Definition pilot (i : nat) : Env :=
  host ((i =? 1)%nat || ((60 <=? i)%nat && (Nat.modulo (i - 60) 41 =? 0)%nat))
       false false (if (i <? 300)%nat then 0 else 100).

(** After 212 ticks of [holdSpace]: the next tick is the first spawn. *)
Definition game212 : Game :=
  {| birdY := (-424)%float;
     birdDY := (-2)%float;
     pillars := [];
     frameCount := 212;
     isGameOver := false;
     score := 0;
     started := true |}.

(** After 412 ticks of [holdSpace]: the first pillar is one step from the
    bird's column and the bird is far above the screen. *)
Definition game412 : Game :=
  {| birdY := (-824)%float;
     birdDY := (-2)%float;
     pillars := [{| x := 40; y := 100 |}];
     frameCount := 412;
     isGameOver := false;
     score := 0;
     started := true |}.

(** One more tick of [holdSpace]: the bird has run into the pillar. *)
Definition game413 : Game :=
  {| birdY := (-826)%float;
     birdDY := (-2)%float;
     pillars := [{| x := 37; y := 100 |}];
     frameCount := 413;
     isGameOver := true;
     score := 0;
     started := true |}.

(** After 492 ticks of [pilot]: the first pillar stands at the left edge and
    leaves in the next tick (the bird is at 32.4, falling at 0.2). *)
Definition game492 : Game :=
  {| birdY := 0x1.0333333333352p+5%float;
     birdDY := 0x1.99999999999b1p-3%float;
     pillars := [{| x := -200; y := 0 |}; {| x := 439; y := 100 |}];
     frameCount := 492;
     isGameOver := false;
     score := 0;
     started := true |}.

(** After 625 ticks of [pilot]: one pillar passed, the second one is one step
    from the bird's column and its gap is below the bird (at 39.9, falling
    at 1.2). *)
Definition game625 : Game :=
  {| birdY := 0x1.3f33333333358p+5%float;
     birdDY := 0x1.3333333333337p+0%float;
     pillars := [{| x := 40; y := 100 |}];
     frameCount := 625;
     isGameOver := false;
     score := 1;
     started := true |}.

(** ** Layout (lines 133-135) *)

Definition Layout (g : Game) (outsideWidth outsideHeight : Z) : Z * Z :=
  (screenWidth, screenHeight).

(** ** Pillars against the frame counter

    [spawnedAt fc p]: [p] stands where the pillar appended at some frame
    [213 * k], [k >= 1], stands at frame [fc]. *)
Definition spawnedAt (fc : Z) (p : Pillar) : Prop :=
  exists k, 1 <= k /\ (screenWidth / pillarSpeed) * k <= fc /\
            x p = screenWidth - pillarSpeed
                  - pillarSpeed * (fc - (screenWidth / pillarSpeed) * k).

(** What holds of a game whose frame counter has not overflowed: every pillar
    appended so far is either in the sequence or counted in the score. *)
Record Timed (g : Game) : Prop := mkTimed {
  timed_frame : 0 <= frameCount g;
  timed_score : 0 <= score g;
  timed_count : score g + Z.of_nat (List.length (pillars g))
                = frameCount g / (screenWidth / pillarSpeed);
  timed_where : Forall (spawnedAt (frameCount g)) (pillars g)
}.

(** The texts [Draw] can print over the frame. *)
Definition startPrompt : DrawOp := DebugPrint "Press Space or Up Arrow to Start".
Definition overPrompt : DrawOp := DebugPrint "GAME OVER. Press Enter to Restart".

(** After 493 ticks of [pilot]: the first pillar has been counted. *)
Definition game493 : Game :=
  {| birdY := 0x1.05999999999b8p+5%float;
     birdDY := 0x1.333333333333fp-2%float;
     pillars := [{| x := 436; y := 100 |}];
     frameCount := 493;
     isGameOver := false;
     score := 1;
     started := true |}.

(** How many of the next [n] ticks played append a pillar, for a frame
    counter that stands at [f]: the counter is incremented as Go does, and
    the test is that of line 67. *)
Fixpoint spawnTicks (f : Z) (n : nat) : nat :=
  match n with
  | O => O
  | S n' =>
      Nat.add
        (if GoInt.rem (GoInt.add f 1) (screenWidth / pillarSpeed) =? 0
         then 1%nat else 0%nat)
        (spawnTicks (GoInt.add f 1) n')
  end.

(** A host whose [rand.Intn] breaks its contract and answers -5. *)
Definition brokenRand : Env :=
  {| IsKeyPressed := fun _ => false; Intn := fun _ => -5 |}.

(** [climb i]: the keys of tick [i] of a run that starts with Space, falls
    for 140 ticks and then holds Space; [rand.Intn] gives 136. *)
Definition climb (i : nat) : Env :=
  host ((i =? 1)%nat || (142 <=? i)%nat) false false 136.

Definition climbEnter : Env := host true false true 136.

(** After 425 ticks of [climb]: the bird (at 136.99..., rising by 2 a tick)
    is still inside the gap of the first pillar, which stands in its column;
    the next tick is the second spawn and takes the bird above the gap. *)
Definition game425 : Game :=
  {| birdY := 0x1.11fffffffffe4p+7%float;
     birdDY := (-2)%float;
     pillars := [{| x := 1; y := 136 |}];
     frameCount := 425;
     isGameOver := false;
     score := 0;
     started := true |}.

(** * Properties *)

(** ** Go integers *)

Lemma wrap_inRange z : GoInt.inRange z -> GoInt.wrap z = z.
Proof.
  unfold GoInt.inRange, GoInt.wrap, GoInt.minInt, GoInt.maxInt. intros H.
  rewrite Z.mod_small; lia.
Qed.

Lemma inRange_0 : GoInt.inRange 0.
Proof. unfold GoInt.inRange, GoInt.minInt, GoInt.maxInt. lia. Qed.

Lemma wrap_range z : GoInt.inRange (GoInt.wrap z).
Proof.
  unfold GoInt.inRange, GoInt.wrap, GoInt.minInt, GoInt.maxInt.
  assert (H := Z.mod_pos_bound (z + 2 ^ 63) (2 ^ 64) eq_refl). lia.
Qed.

Lemma wrap_wrap a b : GoInt.wrap (GoInt.wrap a + b) = GoInt.wrap (a + b).
Proof.
  unfold GoInt.wrap.
  replace ((a + 2 ^ 63) mod 2 ^ 64 - 2 ^ 63 + b + 2 ^ 63)
    with ((a + 2 ^ 63) mod 2 ^ 64 + b) by ring.
  rewrite Zplus_mod_idemp_l. f_equal. f_equal. ring.
Qed.

Lemma bump_wrap k sc :
  bump (S k) sc = GoInt.wrap (sc + Z.of_nat (S k)).
Proof.
  revert sc. induction k as [|k IH]; intros sc.
  - reflexivity.
  - change (bump (S (S k)) sc) with (bump (S k) (GoInt.add sc 1)).
    rewrite IH. unfold GoInt.add. rewrite wrap_wrap. f_equal. lia.
Qed.

Lemma bump_exact k sc :
  GoInt.inRange sc -> sc + Z.of_nat k <= GoInt.maxInt ->
  bump k sc = sc + Z.of_nat k.
Proof.
  destruct k as [|k]; intros Hr Hle.
  - simpl. lia.
  - rewrite bump_wrap. apply wrap_inRange.
    unfold GoInt.inRange in *. lia.
Qed.

Lemma bump_inRange k sc : GoInt.inRange sc -> GoInt.inRange (bump k sc).
Proof.
  destruct k as [|k]; intros H; [exact H|]. rewrite bump_wrap. apply wrap_range.
Qed.

(** ** The range loop *)

Lemma loopBody_ok n pos p s :
  (lo s <= List.length (cells s))%nat ->
  (List.length (cells s) < n)%nat ->
  loopBody n pos p s =
    Some {| cells := cells s ++ [advance p];
            lo := if passed (advance p) then S (lo s) else lo s;
            lscore := if passed (advance p) then GoInt.add (lscore s) 1 else lscore s;
            lover := lover s || hit pos (advance p) |}.
Proof.
  intros Hlo Hn. unfold loopBody, hit.
  destruct (passed (advance p)).
  - assert (Hlt : (lo s <? n)%nat = true) by (apply Nat.ltb_lt; lia).
    rewrite Hlt. f_equal. f_equal.
    destruct (outsideGap pos (advance p)), (inColumn (advance p)), (lover s); reflexivity.
  - f_equal. f_equal.
    destruct (outsideGap pos (advance p)), (inColumn (advance p)), (lover s); reflexivity.
Qed.

Lemma rangePillars_ok n pos todo : forall s,
  (lo s <= List.length (cells s))%nat ->
  (List.length (cells s) + List.length todo <= n)%nat ->
  rangePillars n pos todo s =
    Some {| cells := cells s ++ map advance todo;
            lo := lo s + List.length (filter passed (map advance todo));
            lscore := bump (List.length (filter passed (map advance todo))) (lscore s);
            lover := lover s || existsb (hit pos) (map advance todo) |}.
Proof.
  induction todo as [|p todo IH]; intros s Hlo Hn.
  - simpl. rewrite app_nil_r, Nat.add_0_r, orb_false_r. destruct s; reflexivity.
  - simpl in Hn. cbn [rangePillars].
    rewrite loopBody_ok by lia.
    rewrite IH.
    + cbn [cells lo lscore lover map filter existsb].
      rewrite <- app_assoc. cbn [app].
      rewrite orb_assoc.
      destruct (passed (advance p)); cbn [List.length bump].
      * rewrite Nat.add_succ_r. reflexivity.
      * reflexivity.
    + cbn [cells lo]. rewrite length_app. simpl.
      destruct (passed (advance p)); lia.
    + cbn [cells]. rewrite length_app. simpl. lia.
Qed.

(** The playing branch never panics, and [played] is what it leaves. *)
Lemma playing_played e g : playing e g = Some (played e g).
Proof.
  unfold playing. rewrite rangePillars_ok by (simpl; lia). reflexivity.
Qed.

(** ** One tick, by the state it starts in *)

Lemma Update_PLAYING e g :
  PLAYING g -> Update e g = Some (restart e (played e g)).
Proof.
  intros [Hs Ho]. unfold Update, start. rewrite Hs, Ho. cbn [negb andb].
  rewrite Hs, Ho. cbn [negb andb]. rewrite playing_played. reflexivity.
Qed.

Lemma Update_OVER e g :
  OVER g -> Update e g = Some (restart e g).
Proof.
  unfold OVER. intros Ho. unfold Update, start. rewrite Ho. cbn [negb andb].
  rewrite Ho, andb_false_r. reflexivity.
Qed.

Lemma Update_WAITING_idle e g :
  WAITING g -> jump e = false -> Update e g = Some g.
Proof.
  intros [Hs Ho] Hj. unfold Update, start. rewrite Hs, Ho, Hj. cbn [negb andb].
  rewrite Hs. cbn [andb]. unfold restart. rewrite Ho. reflexivity.
Qed.

Lemma Update_WAITING_jump e g :
  WAITING g -> jump e = true ->
  Update e g = Some (restart e (played e (start e g))) /\
  PLAYING (start e g) /\
  birdY (start e g) = birdY g /\ birdDY (start e g) = birdDY g /\
  pillars (start e g) = pillars g /\ frameCount (start e g) = frameCount g /\
  score (start e g) = score g.
Proof.
  intros [Hs Ho] Hj. unfold Update.
  assert (E : start e g =
              {| birdY := birdY g; birdDY := birdDY g; pillars := pillars g;
                 frameCount := frameCount g; isGameOver := isGameOver g;
                 score := score g; started := true |}).
  { unfold start. rewrite Hs, Ho, Hj. reflexivity. }
  rewrite E. cbn [started isGameOver]. rewrite Ho. cbn [negb andb].
  rewrite playing_played. unfold PLAYING. cbn [started isGameOver birdY birdDY pillars frameCount score].
  repeat split; auto.
Qed.

(** [Update] never panics: [g.pillars[1:]] is only reached while [g.pillars]
    still holds the pillar being visited. *)
Lemma Update_total e g : exists g', Update e g = Some g'.
Proof.
  unfold Update.
  destruct (started (start e g) && negb (isGameOver (start e g))).
  - rewrite playing_played. eauto.
  - eauto.
Qed.

(** ** Sorted sequences *)

Section Sorted.

Variable A : Type.
Variable R : A -> A -> Prop.

Lemma StronglySorted_skipn (k : nat) : forall l : list A,
  StronglySorted R l -> StronglySorted R (skipn k l).
Proof.
  induction k as [|k IH]; intros l Hl.
  - exact Hl.
  - destruct l as [|a l]; [constructor|].
    simpl. apply IH. inversion Hl; assumption.
Qed.

Lemma Forall_skipn (P : A -> Prop) (k : nat) : forall l : list A,
  Forall P l -> Forall P (skipn k l).
Proof.
  induction k as [|k IH]; intros l Hl.
  - exact Hl.
  - destruct l as [|a l]; [constructor|].
    simpl. apply IH. inversion Hl; assumption.
Qed.

Lemma StronglySorted_snoc (l : list A) (a : A) :
  StronglySorted R l -> Forall (fun b => R b a) l ->
  StronglySorted R (l ++ [a]).
Proof.
  induction l as [|b l IH]; intros Hl Ha.
  - repeat constructor.
  - inversion Hl as [|? ? Hl' Hb]; subst. inversion Ha as [|? ? Hba Ha']; subst.
    simpl. constructor; [auto|].
    apply Forall_app. split; [assumption|]. repeat constructor. assumption.
Qed.

(** In a sorted list the elements satisfying a downward closed test are a
    prefix: dropping as many elements as satisfy it drops exactly them. *)
Variable f : A -> bool.
Hypothesis f_down : forall a b, R a b -> f b = true -> f a = true.

Lemma filter_none (l : list A) :
  Forall (fun b => f b = false) l -> filter f l = [].
Proof.
  induction 1 as [|b l Hb _ IH]; simpl; [reflexivity|]. rewrite Hb. exact IH.
Qed.

Lemma filter_all (l : list A) :
  Forall (fun b => f b = false) l -> filter (fun b => negb (f b)) l = l.
Proof.
  induction 1 as [|b l Hb _ IH]; simpl; [reflexivity|].
  rewrite Hb. simpl. f_equal. exact IH.
Qed.

Lemma sorted_prefix (l : list A) :
  StronglySorted R l ->
  firstn (List.length (filter f l)) l = filter f l /\
  skipn (List.length (filter f l)) l = filter (fun b => negb (f b)) l.
Proof.
  induction 1 as [|a l Hl IH Ha]; [split; reflexivity|].
  simpl. destruct (f a) eqn:Efa; simpl.
  - destruct IH as [IH1 IH2]. split; [f_equal|]; assumption.
  - assert (Hno : Forall (fun b => f b = false) l).
    { eapply Forall_impl; [|exact Ha]. intros b Hab. simpl in Hab.
      destruct (f b) eqn:Efb; [|reflexivity].
      rewrite (f_down _ _ Hab Efb) in Efa. discriminate. }
    rewrite filter_none by assumption. simpl.
    rewrite filter_all by assumption. split; reflexivity.
Qed.

End Sorted.

Arguments StronglySorted_skipn {A R}.
Arguments Forall_skipn {A}.
Arguments StronglySorted_snoc {A R}.
Arguments sorted_prefix {A R}.

(** ** The invariant of the reachable states *)

Lemma NewPillar_x e : x (NewPillar e) = screenWidth.
Proof. reflexivity. Qed.

Lemma NewPillar_y_clamped e : 0 <= y (NewPillar e).
Proof.
  unfold NewPillar. cbn [y].
  destruct (Z.ltb_spec (Intn e (screenHeight - pillarGap - pillarWidth)) 0); lia.
Qed.

Lemma NewPillar_y e :
  rand_ok e -> 0 <= y (NewPillar e) < screenHeight - pillarGap - pillarWidth.
Proof.
  intros Hr. unfold NewPillar. cbn [y].
  assert (H := Hr (screenHeight - pillarGap - pillarWidth) eq_refl).
  destruct (Z.ltb_spec (Intn e (screenHeight - pillarGap - pillarWidth)) 0); lia.
Qed.

Lemma advance_x p :
  GoInt.minInt + pillarSpeed <= x p <= GoInt.maxInt ->
  x (advance p) = x p - pillarSpeed.
Proof.
  intros H. unfold advance, GoInt.sub. cbn [x]. apply wrap_inRange.
  unfold GoInt.inRange, GoInt.minInt, GoInt.maxInt, pillarSpeed in *. lia.
Qed.

Lemma advance_y p : y (advance p) = y p.
Proof. reflexivity. Qed.

Lemma spawned_inv e g :
  rand_ok e ->
  StronglySorted spaced (pillars g) -> Forall onTrack (pillars g) ->
  StronglySorted spaced (spawned e g) /\ Forall onSpawn (spawned e g).
Proof.
  intros Hr Hs Ht.
  assert (Ht' : Forall onSpawn (pillars g)).
  { eapply Forall_impl; [|exact Ht]. unfold onTrack, onSpawn, pillarSpeed.
    intros p; lia. }
  unfold spawned. destruct (spawns g); [|split; assumption].
  split.
  - apply StronglySorted_snoc; [assumption|].
    eapply Forall_impl; [|exact Ht]. unfold onTrack, spaced.
    intros p. rewrite NewPillar_x. lia.
  - apply Forall_app. split; [assumption|]. repeat constructor.
    + rewrite NewPillar_x. unfold pillarWidth, screenWidth. lia.
    + rewrite NewPillar_x. lia.
    + apply NewPillar_y; assumption.
    + apply NewPillar_y; assumption.
Qed.

Lemma onSpawn_advance p : onSpawn p -> onMove (advance p).
Proof.
  unfold onSpawn, onMove. intros [Hx Hy]. rewrite advance_y, advance_x.
  - lia.
  - unfold GoInt.minInt, GoInt.maxInt, pillarWidth, pillarSpeed, screenWidth in *. lia.
Qed.

Lemma advance_inv : forall l,
  StronglySorted spaced l -> Forall onSpawn l ->
  StronglySorted spaced (map advance l) /\ Forall onMove (map advance l).
Proof.
  induction 1 as [|p l Hl IH Hp]; intros Ht; [split; constructor|].
  inversion Ht as [|? ? Hpt Hlt]; subst.
  destruct (IH Hlt) as [IH1 IH2]. simpl. split.
  - constructor; [assumption|].
    apply Forall_map. rewrite Forall_forall in *. intros q Hq.
    specialize (Hp q Hq). specialize (Hlt q Hq).
    apply onSpawn_advance in Hpt as Hpm. apply onSpawn_advance in Hlt as Hqm.
    unfold spaced in *. rewrite !advance_x.
    + lia.
    + unfold onSpawn, GoInt.minInt, GoInt.maxInt, pillarWidth, pillarSpeed, screenWidth in *. lia.
    + unfold onSpawn, GoInt.minInt, GoInt.maxInt, pillarWidth, pillarSpeed, screenWidth in *. lia.
  - constructor; [apply onSpawn_advance|]; assumption.
Qed.

Lemma moved_inv e g :
  rand_ok e ->
  StronglySorted spaced (pillars g) -> Forall onTrack (pillars g) ->
  StronglySorted spaced (moved e g) /\ Forall onMove (moved e g).
Proof.
  intros Hr Hs Ht. destruct (spawned_inv e g Hr Hs Ht). apply advance_inv; assumption.
Qed.

Lemma passed_down p q : spaced p q -> passed q = true -> passed p = true.
Proof.
  unfold spaced, passed, pillarSpeed. intros H Hq.
  apply Z.ltb_lt in Hq. apply Z.ltb_lt. lia.
Qed.

(** The pillars dropped from the front are exactly those that went past the
    left edge; those that stay are the others. *)
Lemma moved_split e g :
  rand_ok e ->
  StronglySorted spaced (pillars g) -> Forall onTrack (pillars g) ->
  firstn (crossings e g) (moved e g) = filter passed (moved e g) /\
  skipn (crossings e g) (moved e g) = filter (fun p => negb (passed p)) (moved e g).
Proof.
  intros Hr Hs Ht. destruct (moved_inv e g Hr Hs Ht) as [Hm _].
  exact (sorted_prefix passed passed_down (moved e g) Hm).
Qed.

(** At most one pillar leaves the screen in a tick. *)
Lemma passed_once : forall l,
  StronglySorted spaced l -> Forall onMove l ->
  (List.length (filter passed l) <= 1)%nat.
Proof.
  induction 1 as [|p l Hl IH Hp]; intros Ht; [simpl; lia|].
  inversion Ht as [|? ? Hpt Hlt]; subst. simpl.
  destruct (passed p) eqn:Ep; [|auto].
  rewrite (filter_none _ passed l); [simpl; lia|].
  eapply Forall_impl; [|exact Hp]. intros q Hq. simpl in Hq.
  unfold spaced, passed, onMove, pillarWidth, pillarSpeed in *.
  apply Z.ltb_ge. lia.
Qed.

Lemma crossings_le_1 e g :
  rand_ok e ->
  StronglySorted spaced (pillars g) -> Forall onTrack (pillars g) ->
  (crossings e g <= 1)%nat.
Proof.
  intros Hr Hs Ht. destruct (moved_inv e g Hr Hs Ht). apply passed_once; assumption.
Qed.

Lemma Inv_main : Inv main_game.
Proof.
  constructor; cbn.
  - constructor.
  - constructor.
  - apply inRange_0.
  - apply inRange_0.
  - discriminate.
  - intros _. repeat split; auto.
Qed.

Lemma Inv_Reset g : Inv (Reset g).
Proof.
  constructor; cbn [Reset pillars isGameOver started frameCount score birdY birdDY].
  - constructor.
  - constructor.
  - apply inRange_0.
  - apply inRange_0.
  - discriminate.
  - intros _. repeat split; auto.
Qed.

Lemma Inv_restart e g : Inv g -> Inv (restart e g).
Proof.
  intros H. unfold restart.
  destruct (isGameOver g && IsKeyPressed e KeyEnter); [apply Inv_Reset|exact H].
Qed.

Lemma Inv_played e g :
  rand_ok e -> Inv g -> started g = true -> Inv (played e g).
Proof.
  intros Hr [Hs Ht Hsc Hfc Ho Hw] Hst.
  destruct (moved_inv e g Hr Hs Ht) as [Hms Hmt].
  destruct (moved_split e g Hr Hs Ht) as [_ Hsk].
  constructor; cbn [played pillars isGameOver started score frameCount].
  - apply StronglySorted_skipn. assumption.
  - rewrite Hsk. rewrite Forall_forall in *. intros p Hp.
    apply filter_In in Hp. destruct Hp as [Hp Hnp].
    specialize (Hmt p Hp). unfold onMove, onTrack, passed in *.
    apply negb_true_iff, Z.ltb_ge in Hnp. lia.
  - apply bump_inRange. assumption.
  - apply wrap_range.
  - intros _. assumption.
  - rewrite Hst. discriminate.
Qed.

Lemma Inv_start e g : Inv g -> Inv (start e g).
Proof.
  intros H. unfold start.
  destruct (negb (isGameOver g) && negb (started g)); [|exact H].
  destruct (jump e); [|exact H].
  destruct H as [Hs Ht Hsc Hfc Ho Hw]. constructor; cbn; auto. discriminate.
Qed.

Lemma Inv_Update e g g' :
  rand_ok e -> Inv g -> Update e g = Some g' -> Inv g'.
Proof.
  intros Hr Hi. unfold Update.
  assert (Hi' := Inv_start e g Hi).
  destruct (started (start e g)) eqn:Es; cbn [andb].
  - destruct (negb (isGameOver (start e g))).
    + rewrite playing_played. intros [= <-].
      apply Inv_restart, Inv_played; assumption.
    + intros [= <-]. apply Inv_restart; assumption.
  - intros [= <-]. apply Inv_restart; assumption.
Qed.

Lemma reachable_Inv g : reachable g -> Inv g.
Proof.
  induction 1 as [|e g g' _ IH Hr Hu]; [apply Inv_main|].
  eapply Inv_Update; eassumption.
Qed.

(** ** Runs *)

Lemma run_reachable : forall es g g',
  reachable g -> Forall rand_ok es -> run es g = Some g' -> reachable g'.
Proof.
  induction es as [|e es IH]; intros g g' Hg Hes Hrun.
  - injection Hrun as <-. exact Hg.
  - inversion Hes as [|? ? He Hes']; subst. simpl in Hrun.
    destruct (Update e g) as [g1|] eqn:Eu; [|discriminate].
    eapply IH; [|eassumption|eassumption].
    eapply reach_tick; eassumption.
Qed.

Lemma host_rand_ok space up enter r : rand_ok (host space up enter r).
Proof.
  intros n Hn. cbn. apply Z.mod_pos_bound. exact Hn.
Qed.

Lemma pilot_rand_ok : forall l, Forall rand_ok (map pilot l).
Proof.
  intros l. apply Forall_map, Forall_forall. intros i _. apply host_rand_ok.
Qed.

Lemma holdSpace_ok : forall n, Forall rand_ok (repeat holdSpace n).
Proof.
  intros n. apply Forall_forall. intros e He. apply repeat_spec in He. subst.
  apply host_rand_ok.
Qed.

(** A state is reachable when running the given ticks from [main_game]
    computes it. *)
Ltac by_run es :=
  apply (run_reachable es main_game);
  [ apply reach_main | | vm_compute; reflexivity ].

Lemma reachable_game212 : reachable game212.
Proof. by_run (repeat holdSpace 212). apply holdSpace_ok. Qed.

Lemma reachable_game412 : reachable game412.
Proof. by_run (repeat holdSpace 412). apply holdSpace_ok. Qed.

Lemma reachable_game413 : reachable game413.
Proof.
  apply (reach_tick holdSpace game412).
  - apply reachable_game412.
  - apply host_rand_ok.
  - vm_compute. reflexivity.
Qed.

Lemma reachable_game492 : reachable game492.
Proof. by_run (map pilot (seq 1 492)). apply pilot_rand_ok. Qed.

Lemma reachable_game625 : reachable game625.
Proof. by_run (map pilot (seq 1 625)). apply pilot_rand_ok. Qed.

(** ** Collisions and the restart of the same tick *)

Lemma float_eqb_neq (a b : float) :
  PrimFloat.eqb a b = false -> PrimFloat.eqb b b = true -> a <> b.
Proof. intros Hab Hbb E. rewrite E in Hab. congruence. Qed.

Lemma hit_spec pos p :
  hit pos p = true <->
  ((pos <? float64 (y p))%float = true \/
   (float64 (GoInt.add (y p) pillarGap) <? pos)%float = true) /\
  - pillarWidth < x p < birdSize.
Proof.
  unfold hit, outsideGap, inColumn.
  rewrite !andb_true_iff, orb_true_iff, Z.ltb_lt, Z.gtb_lt. tauto.
Qed.

Lemma collision_collides e g : collision e g = true <-> collides e g.
Proof.
  unfold collision, collides. rewrite existsb_exists.
  split; intros [p [Hp Hh]]; exists p; (split; [exact Hp|]); apply hit_spec; exact Hh.
Qed.

Lemma collision_false e g : collision e g = false <-> ~ collides e g.
Proof.
  rewrite <- collision_collides. destruct (collision e g); split; congruence.
Qed.

(** What line 88 does to the state the playing branch leaves. *)
Lemma restart_played e g :
  PLAYING g ->
  restart e (played e g) =
    if collision e g && IsKeyPressed e KeyEnter then Reset g else played e g.
Proof.
  intros [_ Ho]. unfold restart. cbn [played isGameOver]. rewrite Ho. reflexivity.
Qed.

Lemma Update_PLAYING_cases e g :
  PLAYING g ->
  (collides e g /\ IsKeyPressed e KeyEnter = true /\ Update e g = Some (Reset g)) \/
  (~ (collides e g /\ IsKeyPressed e KeyEnter = true) /\
   Update e g = Some (played e g)).
Proof.
  intros Hp. rewrite (Update_PLAYING e g Hp), (restart_played e g Hp).
  destruct (collision e g) eqn:Ec, (IsKeyPressed e KeyEnter) eqn:Ek; cbn [andb].
  - left. rewrite <- collision_collides. auto.
  - right. split; [intros [_ H]; discriminate|reflexivity].
  - right. apply collision_false in Ec. split; [tauto|reflexivity].
  - right. apply collision_false in Ec. split; [tauto|reflexivity].
Qed.

Lemma played_withoutEnter e g : played (withoutEnter e) g = played e g.
Proof. reflexivity. Qed.

(** The first tick of a game: the frame counter goes to 1, nothing is
    spawned, nothing can be run into. *)
Lemma first_tick e g :
  reachable g -> WAITING g -> jump e = true ->
  Update e g =
    Some {| birdY := (birdY g + -2)%float;
            birdDY := (-2)%float;
            pillars := [];
            frameCount := 1;
            isGameOver := false;
            score := 0;
            started := true |}.
Proof.
  intros Hr Hw Hj.
  destruct (Update_WAITING_jump e g Hw Hj) as (Hu & Hp & Hy & Hdy & Hps & Hfc & Hsc).
  destruct (inv_wait g (reachable_Inv g Hr) (proj1 Hw)) as (Eps & Efc & Esc & _ & _).
  rewrite Hu. f_equal.
  assert (Hnew : newDY e (start e g) = (-2)%float) by (unfold newDY; rewrite Hj; reflexivity).
  assert (Hsp : spawned e (start e g) = []).
  { unfold spawned, spawns, newFrame. rewrite Hfc, Efc, Hps, Eps. reflexivity. }
  assert (Hpl : played e (start e g) =
                {| birdY := (birdY g + -2)%float; birdDY := (-2)%float;
                   pillars := []; frameCount := 1; isGameOver := false;
                   score := 0; started := true |}).
  { unfold played, collision, crossings, moved, newY, newFrame.
    rewrite Hsp, Hnew, Hy, Hfc, Efc, Hsc, Esc. cbn [map filter List.length skipn existsb bump].
    rewrite (proj1 Hp), (proj2 Hp). reflexivity. }
  rewrite Hpl. reflexivity.
Qed.

(** * The claims *)

(** C1 (as amended).  For every tick of [Update] started in the PLAYING
    state, the state after the tick is OVER ([isGameOver] set) if and only if
    Enter is not held during the tick and, after the tick's movement, the bird
    is strictly outside the gap band [[pillar.y, pillar.y + pillarGap]] of
    some pillar with [-pillarWidth < pillar.x < birdSize].  When the bird runs
    into a pillar while Enter is held, line 88 resets the game within the same
    tick and the tick ends in WAITING.  In particular no tick ends in OVER
    while no pillar stands in the bird's column, wherever the bird is. *)
Theorem game_over_iff_collision e g :
  PLAYING g ->
  exists g',
    Update e g = Some g' /\
    (isGameOver g' = true <-> collides e g /\ IsKeyPressed e KeyEnter = false) /\
    (collides e g -> IsKeyPressed e KeyEnter = true -> WAITING g') /\
    ((forall p, In p (moved e g) -> ~ - pillarWidth < x p < birdSize) ->
     isGameOver g' = false).
Proof.
  intros Hp.
  assert (Hnc : (forall p, In p (moved e g) -> ~ - pillarWidth < x p < birdSize) ->
                ~ collides e g).
  { intros Hno (p & Hin & _ & Hx). exact (Hno p Hin Hx). }
  destruct (Update_PLAYING_cases e g Hp) as [(Hc & Hk & Hu)|(Hn & Hu)].
  - exists (Reset g). split; [exact Hu|]. cbn [Reset isGameOver].
    split; [|split].
    + split; [discriminate|]. intros [_ Hk']. congruence.
    + intros _ _. split; reflexivity.
    + reflexivity.
  - exists (played e g). split; [exact Hu|]. cbn [played isGameOver].
    rewrite (proj2 Hp). cbn [orb]. rewrite collision_collides.
    split; [|split].
    + split.
      * intros Hc. split; [exact Hc|].
        destruct (IsKeyPressed e KeyEnter); [tauto|reflexivity].
      * tauto.
    + tauto.
    + intros Hno. apply collision_false. auto.
Qed.

Lemma game_over_iff_collision_witness :
  exists g',
    Update holdSpace game412 = Some g' /\
    (isGameOver g' = true <->
     collides holdSpace game412 /\ IsKeyPressed holdSpace KeyEnter = false) /\
    (collides holdSpace game412 -> IsKeyPressed holdSpace KeyEnter = true -> WAITING g') /\
    ((forall p, In p (moved holdSpace game412) -> ~ - pillarWidth < x p < birdSize) ->
     isGameOver g' = false).
Proof.
  apply (game_over_iff_collision holdSpace game412). split; reflexivity.
Defined.

(** C1 as stated fails: the bird of [game412] runs into the pillar in the
    next tick, and with Enter held that tick does not end in OVER. *)
Lemma collision_with_enter_not_over :
  reachable game412 /\ PLAYING game412 /\
  collides spaceEnter game412 /\
  exists g', Update spaceEnter game412 = Some g' /\ isGameOver g' = false.
Proof.
  split; [apply reachable_game412|]. split; [split; reflexivity|]. split.
  - apply collision_collides. vm_compute. reflexivity.
  - exists (Reset game412). split; vm_compute; reflexivity.
Qed.

(** C2 (as amended).  For every tick of [Update] started in the PLAYING
    state, unless the bird runs into a pillar while Enter is held, the
    velocity after the tick is the previous velocity plus the gravity constant
    0.1, or exactly the impulse -2 when Space or ArrowUp is held (the impulse
    replaces the accumulated velocity), and the position after the tick is the
    previous position plus the new velocity.  When the bird runs into a pillar
    while Enter is held, the same tick resets the game: the velocity after the
    tick is 0 and the position is [screenHeight / 2]. *)
Theorem bird_motion e g :
  PLAYING g ->
  exists g',
    Update e g = Some g' /\
    (~ (collides e g /\ IsKeyPressed e KeyEnter = true) ->
     birdDY g' = (if jump e then (-2)%float else (birdDY g + gravity)%float) /\
     birdY g' = (birdY g + birdDY g')%float) /\
    (collides e g /\ IsKeyPressed e KeyEnter = true ->
     birdDY g' = 0%float /\ birdY g' = float64 (screenHeight / 2)).
Proof.
  intros Hp.
  destruct (Update_PLAYING_cases e g Hp) as [(Hc & Hk & Hu)|(Hn & Hu)].
  - exists (Reset g). split; [exact Hu|]. split.
    + intros Hno. exfalso. apply Hno. split; assumption.
    + intros _. split; reflexivity.
  - exists (played e g). split; [exact Hu|]. split.
    + intros _. cbn [played birdDY birdY]. unfold newY, newDY. split; reflexivity.
    + intros Hyes. exfalso. exact (Hn Hyes).
Qed.

Lemma bird_motion_witness :
  exists g',
    Update holdSpace game212 = Some g' /\
    (~ (collides holdSpace game212 /\ IsKeyPressed holdSpace KeyEnter = true) ->
     birdDY g' = (if jump holdSpace then (-2)%float
                  else (birdDY game212 + gravity)%float) /\
     birdY g' = (birdY game212 + birdDY g')%float) /\
    (collides holdSpace game212 /\ IsKeyPressed holdSpace KeyEnter = true ->
     birdDY g' = 0%float /\ birdY g' = float64 (screenHeight / 2)).
Proof.
  apply (bird_motion holdSpace game212). split; reflexivity.
Defined.

(** C2 as stated fails: in the tick after [game412] Space is held, and with
    Enter held too the velocity after the tick is not the impulse and the
    position is not the previous position plus the velocity. *)
Lemma jump_with_enter_velocity :
  reachable game412 /\ PLAYING game412 /\ jump spaceEnter = true /\
  exists g',
    Update spaceEnter game412 = Some g' /\
    birdDY g' = 0%float /\ birdDY g' <> (-2)%float /\
    birdY g' = 315%float /\ birdY g' <> (birdY game412 + birdDY g')%float.
Proof.
  split; [apply reachable_game412|]. split; [split; reflexivity|].
  split; [reflexivity|].
  exists (Reset game412). split; [vm_compute; reflexivity|].
  split; [reflexivity|]. split; [apply float_eqb_neq; reflexivity|].
  split; [reflexivity|]. apply float_eqb_neq; reflexivity.
Qed.

(** C3 (the code departs from it).  The game [main] builds has the zero value
    in every scalar field: the bird starts at position 0, the top of the
    screen, with velocity 0.  [Reset] puts the bird at [screenHeight / 2] =
    315 with velocity 0.  The velocities agree, the positions do not. *)
Theorem main_game_bird :
  birdY main_game = 0%float /\ birdDY main_game = 0%float /\
  birdY (Reset main_game) = 315%float /\ birdDY (Reset main_game) = 0%float /\
  float64 (screenHeight / 2) = 315%float /\
  birdY main_game <> birdY (Reset main_game).
Proof.
  repeat split; try reflexivity.
  apply float_eqb_neq; reflexivity.
Qed.

(** C4 (as amended).  Whenever Enter is held in a tick started in the OVER
    state, the state after the tick has the bird at [screenHeight / 2] with
    velocity 0, no pillars, score 0, frame counter 0 and both flags cleared.
    Enter has no effect in a tick started in WAITING.  In a tick started in
    PLAYING it has no effect unless the bird runs into a pillar during that
    tick; then line 88 sees the flag just set and resets the game within the
    same tick. *)
Theorem confirm_restart e g :
  reachable g ->
  (OVER g -> IsKeyPressed e KeyEnter = true ->
   exists g',
     Update e g = Some g' /\
     birdY g' = float64 (screenHeight / 2) /\ birdDY g' = 0%float /\
     pillars g' = [] /\ score g' = 0 /\ frameCount g' = 0 /\
     started g' = false /\ isGameOver g' = false) /\
  (WAITING g -> Update e g = Update (withoutEnter e) g) /\
  (PLAYING g -> ~ collides e g -> Update e g = Update (withoutEnter e) g) /\
  (PLAYING g -> collides e g -> IsKeyPressed e KeyEnter = true ->
   Update e g = Some (Reset g) /\
   exists g', Update (withoutEnter e) g = Some g' /\ OVER g').
Proof.
  intros Hr. split; [|split; [|split]].
  - intros Ho Hk. exists (Reset g). split.
    + rewrite (Update_OVER e g Ho). unfold restart. unfold OVER in Ho.
      rewrite Ho, Hk. reflexivity.
    + cbn. repeat split; reflexivity.
  - intros Hw. destruct (jump e) eqn:Hj.
    + rewrite (first_tick e g Hr Hw Hj).
      rewrite (first_tick (withoutEnter e) g Hr Hw Hj). reflexivity.
    + rewrite (Update_WAITING_idle e g Hw Hj).
      rewrite (Update_WAITING_idle (withoutEnter e) g Hw Hj). reflexivity.
  - intros Hp Hn. apply collision_false in Hn.
    rewrite !Update_PLAYING, !restart_played by assumption.
    rewrite played_withoutEnter.
    change (collision (withoutEnter e) g) with (collision e g).
    rewrite Hn. reflexivity.
  - intros Hp Hc Hk. apply collision_collides in Hc. split.
    + rewrite Update_PLAYING, restart_played by assumption.
      rewrite Hc, Hk. reflexivity.
    + exists (played e g). split.
      * rewrite Update_PLAYING, restart_played by assumption.
        rewrite andb_false_r. reflexivity.
      * unfold OVER. cbn [played isGameOver]. rewrite Hc. apply orb_true_r.
Qed.

Lemma confirm_restart_witness :
  exists g',
    Update enterOnly game413 = Some g' /\
    birdY g' = float64 (screenHeight / 2) /\ birdDY g' = 0%float /\
    pillars g' = [] /\ score g' = 0 /\ frameCount g' = 0 /\
    started g' = false /\ isGameOver g' = false.
Proof.
  apply (confirm_restart enterOnly game413 reachable_game413); reflexivity.
Defined.

(** C4 as stated fails: [game412] is in the PLAYING state, and the tick that
    follows ends in OVER with Enter released and in WAITING with Enter held. *)
Lemma enter_while_playing :
  reachable game412 /\ PLAYING game412 /\
  Update (withoutEnter spaceEnter) game412 = Some game413 /\
  Update spaceEnter game412 = Some (Reset game412) /\
  Update spaceEnter game412 <> Update (withoutEnter spaceEnter) game412.
Proof.
  split; [apply reachable_game412|]. split; [split; reflexivity|].
  assert (H1 : Update (withoutEnter spaceEnter) game412 = Some game413)
    by (vm_compute; reflexivity).
  assert (H2 : Update spaceEnter game412 = Some (Reset game412))
    by (vm_compute; reflexivity).
  split; [exact H1|]. split; [exact H2|].
  rewrite H1, H2. intros E.
  apply (f_equal (fun o => match o with Some g => isGameOver g | None => false end)) in E.
  discriminate.
Qed.

(** ** The spawn cadence *)

Lemma newFrame_exact g :
  GoInt.inRange (frameCount g) -> frameCount g < GoInt.maxInt ->
  newFrame g = frameCount g + 1.
Proof.
  intros Hr Hlt. unfold newFrame, GoInt.add. apply wrap_inRange.
  unfold GoInt.inRange in *. lia.
Qed.

Lemma spawns_divide g :
  spawns g = true <-> (screenWidth / pillarSpeed | newFrame g).
Proof.
  unfold spawns, GoInt.rem. rewrite Z.eqb_eq. apply Z.rem_divide. discriminate.
Qed.

Lemma spawns_mod g :
  0 <= frameCount g < GoInt.maxInt ->
  spawns g = ((frameCount g + 1) mod 213 =? 0).
Proof.
  intros H. unfold spawns, GoInt.rem.
  rewrite newFrame_exact by (unfold GoInt.inRange, GoInt.minInt, GoInt.maxInt in *; lia).
  rewrite Z.rem_mod_nonneg by (unfold screenWidth, pillarSpeed; cbn; lia).
  reflexivity.
Qed.

Lemma div_step f :
  0 <= f ->
  (f + 1) / 213 - f / 213 = if (f + 1) mod 213 =? 0 then 1 else 0.
Proof.
  intros Hf.
  assert (H1 := Z.div_mod (f + 1) 213 ltac:(lia)).
  assert (H0 := Z.div_mod f 213 ltac:(lia)).
  assert (B1 := Z.mod_pos_bound (f + 1) 213 eq_refl).
  assert (B0 := Z.mod_pos_bound f 213 eq_refl).
  destruct (Z.eqb_spec ((f + 1) mod 213) 0); lia.
Qed.

(** Over any stretch of ticks played without overflow of the frame counter,
    the pillars appended are as many as the multiples of 213 the counter
    passes. *)
Lemma spawn_count n k g g' :
  plays n k g g' ->
  0 <= frameCount g -> frameCount g + Z.of_nat n <= GoInt.maxInt ->
  Z.of_nat k = (frameCount g + Z.of_nat n) / 213 - frameCount g / 213.
Proof.
  induction 1 as [g|n k e g g1 g' Hp He Hu Hrest IH]; intros H0 Hmax.
  - rewrite Z.add_0_r. lia.
  - assert (Hstep := div_step (frameCount g) H0).
    rewrite <- spawns_mod in Hstep by lia.
    inversion Hrest as [g0|n0 k0 e0 g0 g2 g3 Hp1 He1 Hu1 Hrest1]; subst.
    + change (Z.of_nat 1) with 1. rewrite Hstep, Nat.add_0_r.
      destruct (spawns g); reflexivity.
    + assert (Hfc : frameCount g1 = frameCount g + 1).
      { rewrite (Update_PLAYING e g Hp), (restart_played e g Hp) in Hu.
        destruct (collision e g && IsKeyPressed e KeyEnter).
        - injection Hu as <-. destruct Hp1 as [Hs _]. discriminate.
        - injection Hu as <-. cbn [played frameCount].
          apply newFrame_exact; unfold GoInt.inRange, GoInt.minInt, GoInt.maxInt in *; lia. }
      rewrite Hfc in IH.
      specialize (IH ltac:(lia) ltac:(lia)).
      rewrite Nat2Z.inj_add, IH.
      replace (frameCount g + Z.of_nat (S (S n0)))
        with (frameCount g + 1 + Z.of_nat (S n0)) by lia.
      set (q := (frameCount g + 1 + Z.of_nat (S n0)) / 213).
      set (q1 := (frameCount g + 1) / 213) in *.
      set (q0 := frameCount g / 213) in *.
      replace (q - q0) with ((q1 - q0) + (q - q1)) by ring.
      rewrite Hstep. destruct (spawns g); reflexivity.
Qed.

Lemma NewPillar_stays e : passed (advance (NewPillar e)) = false.
Proof. reflexivity. Qed.

(** The sequence after the playing branch: the old pillars that are still on
    screen, moved, followed by the new one if this tick spawned. *)
Lemma played_pillars e g :
  rand_ok e -> reachable g ->
  pillars (played e g) =
    filter (fun p => negb (passed p)) (map advance (pillars g)) ++
    (if spawns g then [advance (NewPillar e)] else []).
Proof.
  intros Hr Hg. destruct (reachable_Inv g Hg) as [Hs Ht _ _ _ _].
  cbn [played pillars].
  rewrite (proj2 (moved_split e g Hr Hs Ht)).
  unfold moved, spawned. destruct (spawns g).
  - rewrite map_app, filter_app. cbn [map filter].
    rewrite NewPillar_stays. reflexivity.
  - rewrite app_nil_r. reflexivity.
Qed.

Lemma plays_spawnTicks n k g g' :
  plays n k g g' -> k = spawnTicks (frameCount g) n.
Proof.
  induction 1 as [g|n k e g g1 g' Hp He Hu Hrest IH]; [reflexivity|].
  cbn [spawnTicks]. f_equal. rewrite IH. clear IH.
  inversion Hrest as [g0|n0 k0 e0 g0 g2 g3 Hp1 He1 Hu1 Hrest1]; subst.
  - reflexivity.
  - f_equal.
    rewrite (Update_PLAYING e g Hp), (restart_played e g Hp) in Hu.
    destruct (collision e g && IsKeyPressed e KeyEnter).
    + injection Hu as <-. destruct Hp1 as [Hs _]. discriminate.
    + injection Hu as <-. reflexivity.
Qed.

Lemma climb_rand_ok : forall l, Forall rand_ok (map climb l).
Proof.
  intros l. apply Forall_map, Forall_forall. intros i _. apply host_rand_ok.
Qed.

Lemma reachable_game425 : reachable game425.
Proof. by_run (map climb (seq 1 425)). apply climb_rand_ok. Qed.

(** C5 (as amended).  In every tick started in a reachable PLAYING state,
    unless the bird runs into a pillar while Enter is held, the frame counter
    after the tick is the counter before plus one (Go's int addition) and the
    sequence after the tick is the old pillars still on screen, moved, with
    exactly one new pillar at the end when the new frame count is a multiple
    of [screenWidth / pillarSpeed] = 213, and without any new pillar
    otherwise.  When the bird runs into a pillar while Enter is held, the
    same tick resets the game: the sequence after the tick is empty and the
    frame counter 0, also on a spawn tick.  Over [n] consecutive ticks played
    the pillars appended are as many as the frame counts, among the next [n],
    that are multiples of 213; while the frame counter does not overflow that
    is one pillar every 213 ticks.  A new pillar is created at [screenWidth]
    (one step left of it by the end of the tick) with the value of
    [rand.Intn(230)] as its gap offset, so that under the contract of
    [rand.Intn] the gap lies on screen; whatever [rand.Intn] answers, a
    negative value is clamped to 0 and any other value is kept. *)
Theorem pillar_spawn e g :
  rand_ok e -> reachable g -> PLAYING g ->
  (exists g',
     Update e g = Some g' /\
     (~ (collides e g /\ IsKeyPressed e KeyEnter = true) ->
      frameCount g' = GoInt.add (frameCount g) 1 /\
      (frameCount g < GoInt.maxInt -> frameCount g' = frameCount g + 1) /\
      ((screenWidth / pillarSpeed | frameCount g') ->
       pillars g' =
         filter (fun p => negb (passed p)) (map advance (pillars g)) ++
         [advance (NewPillar e)]) /\
      (~ (screenWidth / pillarSpeed | frameCount g') ->
       pillars g' = filter (fun p => negb (passed p)) (map advance (pillars g)))) /\
     (collides e g /\ IsKeyPressed e KeyEnter = true ->
      pillars g' = [] /\ frameCount g' = 0)) /\
  (forall n k g', plays n k g g' ->
     k = spawnTicks (frameCount g) n /\
     (0 <= frameCount g -> frameCount g + Z.of_nat n <= GoInt.maxInt ->
      Z.of_nat k =
        (frameCount g + Z.of_nat n) / (screenWidth / pillarSpeed)
        - frameCount g / (screenWidth / pillarSpeed))) /\
  (y (NewPillar e) = Intn e (screenHeight - pillarGap - pillarWidth) /\
   0 <= y (NewPillar e) /\ y (NewPillar e) + pillarGap <= screenHeight) /\
  (forall h : Env,
     x (NewPillar h) = screenWidth /\
     advance (NewPillar h) =
       {| x := screenWidth - pillarSpeed; y := y (NewPillar h) |} /\
     0 <= y (NewPillar h) /\
     (Intn h (screenHeight - pillarGap - pillarWidth) < 0 ->
      y (NewPillar h) = 0) /\
     (0 <= Intn h (screenHeight - pillarGap - pillarWidth) ->
      y (NewPillar h) = Intn h (screenHeight - pillarGap - pillarWidth))).
Proof.
  intros Hr Hg Hp. assert (Hi := reachable_Inv g Hg).
  split; [|split; [|split]].
  - destruct (Update_PLAYING_cases e g Hp) as [(Hc & Hk & Hu)|(Hn & Hu)].
    + exists (Reset g). split; [exact Hu|]. split.
      * intros Hno. exfalso. apply Hno. split; assumption.
      * intros _. split; reflexivity.
    + exists (played e g). split; [exact Hu|]. split.
      * intros _. cbn [played frameCount]. split; [reflexivity|]. split.
        { intros Hlt. apply newFrame_exact; [apply (inv_frame g Hi)|exact Hlt]. }
        split.
        { intros Hd. apply spawns_divide in Hd.
          rewrite (played_pillars e g Hr Hg), Hd. reflexivity. }
        { intros Hd. rewrite (played_pillars e g Hr Hg).
          destruct (spawns g) eqn:Es; [|apply app_nil_r].
          exfalso. apply Hd. apply spawns_divide. exact Es. }
      * intros Hyes. exfalso. exact (Hn Hyes).
  - intros n k g' Hplays. split.
    + exact (plays_spawnTicks n k g g' Hplays).
    + exact (spawn_count n k g g' Hplays).
  - assert (H := NewPillar_y e Hr).
    assert (Hy : y (NewPillar e) = Intn e (screenHeight - pillarGap - pillarWidth)).
    { unfold NewPillar. cbn [y].
      assert (H0 := Hr (screenHeight - pillarGap - pillarWidth) eq_refl).
      destruct (Z.ltb_spec (Intn e (screenHeight - pillarGap - pillarWidth)) 0);
        [lia|reflexivity]. }
    split; [exact Hy|].
    unfold screenHeight, pillarGap, pillarWidth in *. lia.
  - intros h. split; [apply NewPillar_x|]. split; [reflexivity|].
    split; [apply NewPillar_y_clamped|].
    unfold NewPillar. cbn [y]. split.
    + intros Hneg. apply Z.ltb_lt in Hneg. rewrite Hneg. reflexivity.
    + intros Hpos. apply Z.ltb_ge in Hpos. rewrite Hpos. reflexivity.
Qed.

Lemma pillar_spawn_witness :
  (exists g',
     Update holdSpace game212 = Some g' /\
     frameCount g' = 213 /\
     pillars g' = [{| x := 637; y := 100 |}]) /\
  Intn brokenRand (screenHeight - pillarGap - pillarWidth) = -5 /\
  NewPillar brokenRand = {| x := 640; y := 0 |}.
Proof.
  destruct (pillar_spawn holdSpace game212 (host_rand_ok _ _ _ _) reachable_game212)
    as ((g' & Hu & Hstay & _) & _ & _ & Hnew).
  - split; reflexivity.
  - split; [|split; [reflexivity|]].
    + exists g'. split; [exact Hu|].
      destruct Hstay as (_ & Hfc & Hps & _).
      * intros [_ Hk]. discriminate Hk.
      * assert (Hfc' : frameCount g' = 213) by (apply Hfc; reflexivity).
        split; [exact Hfc'|].
        rewrite Hps; [reflexivity|]. rewrite Hfc'. exists 1. reflexivity.
    + destruct (Hnew brokenRand) as (_ & _ & _ & Hclamp & _).
      unfold NewPillar. cbn [Intn brokenRand]. reflexivity.
Defined.

(** C5 as stated fails: the tick after [game425] is a spawn tick (its frame
    count is 426 = 2 * 213); the bird leaves the gap of the pillar in its
    column, and with Enter held the sequence after the tick holds no pillar,
    new or old.  With Enter released the same tick leaves the old pillar and
    the new one. *)
Lemma spawn_tick_reset :
  reachable game425 /\ PLAYING game425 /\
  (screenWidth / pillarSpeed | GoInt.add (frameCount game425) 1) /\
  (exists g', Update climbEnter game425 = Some g' /\ pillars g' = []) /\
  (exists g', Update (withoutEnter climbEnter) game425 = Some g' /\
     pillars g' = [{| x := -2; y := 136 |}; {| x := 637; y := 136 |}]).
Proof.
  split; [apply reachable_game425|]. split; [split; reflexivity|].
  split; [exists 2; reflexivity|]. split.
  - exists (Reset game425). split; vm_compute; reflexivity.
  - eexists. split; vm_compute; reflexivity.
Qed.

(** ** The score *)

Lemma onTrack_not_passed p : onTrack p -> passed p = false.
Proof.
  unfold onTrack, passed. intros [Hx _]. apply Z.ltb_ge. lia.
Qed.

(** C6 (as amended).  In a tick started in the PLAYING state no pillar of the
    sequence has yet gone past the left edge; at most one does during the
    tick (its position after the move by [pillarSpeed] is below
    [-pillarWidth]).  The pillars dropped are exactly those, taken from the
    front, and the pillars kept are exactly the others, so no pillar is
    counted twice.  Unless the bird runs into a pillar while Enter is held,
    the score after the tick is the score before when no pillar went past and
    the score before plus 1 when one did.  When the bird runs into a pillar
    while Enter is held, the same tick resets the game and the score after
    the tick is 0. *)
Theorem score_counts_passed e g :
  rand_ok e -> reachable g -> PLAYING g ->
  exists g',
    Update e g = Some g' /\
    Forall (fun p => passed p = false) (pillars g) /\
    (crossings e g <= 1)%nat /\
    firstn (crossings e g) (moved e g) = filter passed (moved e g) /\
    (~ (collides e g /\ IsKeyPressed e KeyEnter = true) ->
     (crossings e g = 0%nat -> score g' = score g) /\
     (crossings e g = 1%nat ->
      score g' = GoInt.add (score g) 1 /\
      (score g < GoInt.maxInt -> score g' = score g + 1)) /\
     pillars g' = skipn (crossings e g) (moved e g) /\
     pillars g' = filter (fun p => negb (passed p)) (moved e g)) /\
    (collides e g /\ IsKeyPressed e KeyEnter = true -> score g' = 0).
Proof.
  intros Hr Hg Hp.
  destruct (reachable_Inv g Hg) as [Hs Ht Hsc _ _ _].
  destruct (moved_split e g Hr Hs Ht) as [Hfirst Hskip].
  assert (Hold : Forall (fun p => passed p = false) (pillars g)).
  { eapply Forall_impl; [|exact Ht]. exact onTrack_not_passed. }
  assert (Hle := crossings_le_1 e g Hr Hs Ht).
  destruct (Update_PLAYING_cases e g Hp) as [(Hc & Hk & Hu)|(Hn & Hu)].
  - exists (Reset g). split; [exact Hu|]. split; [exact Hold|].
    split; [exact Hle|]. split; [exact Hfirst|]. split.
    + intros Hno. exfalso. apply Hno. split; assumption.
    + intros _. reflexivity.
  - exists (played e g). split; [exact Hu|]. split; [exact Hold|].
    split; [exact Hle|]. split; [exact Hfirst|]. split.
    + intros _. cbn [played score pillars]. split; [|split; [|split]].
      * intros E. rewrite E. reflexivity.
      * intros E. rewrite E. split; [reflexivity|].
        intros Hlt. cbn [bump]. unfold GoInt.add. apply wrap_inRange.
        unfold GoInt.inRange in *. lia.
      * reflexivity.
      * exact Hskip.
    + intros Hyes. exfalso. exact (Hn Hyes).
Qed.

Lemma score_counts_passed_witness :
  exists g',
    Update (pilot 493) game492 = Some g' /\
    crossings (pilot 493) game492 = 1%nat /\
    score g' = 1 /\
    pillars g' = [{| x := 436; y := 100 |}].
Proof.
  destruct (score_counts_passed (pilot 493) game492
              (host_rand_ok _ _ _ _) reachable_game492)
    as (g' & Hu & _ & _ & _ & Hsc & _).
  - split; reflexivity.
  - exists g'. split; [exact Hu|].
    destruct Hsc as (_ & H1 & _ & Hps).
    + intros [_ Hk]. discriminate Hk.
    + split; [reflexivity|]. split.
      * apply H1; reflexivity.
      * rewrite Hps. reflexivity.
Defined.

(** C6 as stated fails: in the tick after [game625] no pillar goes past the
    left edge, and with Enter held the score goes from 1 to 0. *)
Lemma score_zeroed_by_enter :
  reachable game625 /\ PLAYING game625 /\
  score game625 = 1 /\ crossings enterOnly game625 = 0%nat /\
  exists g', Update enterOnly game625 = Some g' /\ score g' = 0.
Proof.
  split; [apply reachable_game625|]. split; [split; reflexivity|].
  split; [reflexivity|]. split; [reflexivity|].
  exists (Reset game625). split; vm_compute; reflexivity.
Qed.

(** ** The order of the pillars *)

Lemma StronglySorted_weaken {A} (R R' : A -> A -> Prop) (l : list A) :
  (forall a b, R a b -> R' a b) -> StronglySorted R l -> StronglySorted R' l.
Proof.
  intros HR. induction 1 as [|a l Hl IH Ha]; constructor.
  - exact IH.
  - eapply Forall_impl; [|exact Ha]. intros b. apply HR.
Qed.

Lemma StronglySorted_nth {A} (R : A -> A -> Prop) : forall (l : list A) i j a b,
  StronglySorted R l -> (i < j)%nat ->
  nth_error l i = Some a -> nth_error l j = Some b -> R a b.
Proof.
  induction l as [|c l IH]; intros i j a b Hl Hij Hi Hj.
  - destruct i; discriminate.
  - inversion Hl as [|? ? Hl' Hc]; subst.
    destruct j as [|j]; [lia|]. simpl in Hj.
    destruct i as [|i].
    + injection Hi as <-. rewrite Forall_forall in Hc.
      apply Hc. eapply nth_error_In. exact Hj.
    + simpl in Hi. apply (IH i j); [assumption|lia|assumption|assumption].
Qed.

Lemma spaced_leftOf p q : spaced p q -> leftOf p q.
Proof. unfold spaced, leftOf, pillarSpeed. lia. Qed.

(** C7.  In every reachable state the pillar sequence is sorted by
    horizontal position, strictly: a pillar nearer the front stands to the
    left of every pillar behind it, so the front pillar has the smallest x and
    the last appended one the largest.  Each operation of a tick keeps the
    order: the spawn at the right edge, the move of all pillars by
    [pillarSpeed], the removal from the front; [Reset] leaves the empty
    sequence. *)
Theorem pillars_sorted g :
  reachable g ->
  StronglySorted leftOf (pillars g) /\
  (forall i j p q, (i < j)%nat ->
     nth_error (pillars g) i = Some p -> nth_error (pillars g) j = Some q ->
     x p < x q) /\
  (forall e, rand_ok e ->
     StronglySorted leftOf (spawned e g) /\
     StronglySorted leftOf (moved e g) /\
     StronglySorted leftOf (skipn (crossings e g) (moved e g))) /\
  pillars (Reset g) = [].
Proof.
  intros Hg. destruct (reachable_Inv g Hg) as [Hs Ht _ _ _ _].
  assert (Hl : StronglySorted leftOf (pillars g)).
  { exact (StronglySorted_weaken spaced leftOf _ spaced_leftOf Hs). }
  split; [exact Hl|]. split.
  - intros i j p q Hij Hi Hj.
    exact (StronglySorted_nth leftOf (pillars g) i j p q Hl Hij Hi Hj).
  - split; [|reflexivity]. intros e Hr.
    destruct (spawned_inv e g Hr Hs Ht) as [Hsp _].
    destruct (moved_inv e g Hr Hs Ht) as [Hmv _].
    split; [|split].
    + exact (StronglySorted_weaken spaced leftOf _ spaced_leftOf Hsp).
    + exact (StronglySorted_weaken spaced leftOf _ spaced_leftOf Hmv).
    + apply StronglySorted_skipn.
      exact (StronglySorted_weaken spaced leftOf _ spaced_leftOf Hmv).
Qed.

Lemma pillars_sorted_witness :
  StronglySorted leftOf [{| x := -200; y := 0 |}; {| x := 439; y := 100 |}].
Proof.
  exact (proj1 (pillars_sorted game492 reachable_game492)).
Defined.

(** ** The flags *)

(** C9.  In every reachable state, if the game-over flag is set then the
    started flag is set: the machine is never at once not started and over. *)
Theorem over_only_when_started g :
  reachable g ->
  (isGameOver g = true -> started g = true) /\
  ~ (started g = false /\ isGameOver g = true).
Proof.
  intros Hg. assert (Ho := inv_over g (reachable_Inv g Hg)).
  split; [exact Ho|].
  intros [Hs Hov]. rewrite (Ho Hov) in Hs. discriminate.
Qed.

Lemma over_only_when_started_witness :
  isGameOver game413 = true /\ started game413 = true.
Proof.
  split; [reflexivity|].
  apply (over_only_when_started game413 reachable_game413). reflexivity.
Defined.

(** C10.  When Space or ArrowUp is held in a tick started in the WAITING
    state, the same tick starts the game and runs one full step of the playing
    branch: gravity is added and the impulse then replaces the velocity, so
    after the tick the game is PLAYING, the velocity is exactly -2, and the
    position is the waiting position plus -2 (0 becomes -2 for the game [main]
    builds, 315 becomes 313 after a reset); the frame counter is 1. *)
Theorem start_tick e g :
  reachable g -> WAITING g -> jump e = true ->
  exists g',
    Update e g = Some g' /\
    PLAYING g' /\
    newDY e g = (-2)%float /\
    birdDY g' = (-2)%float /\
    birdY g' = (birdY g + -2)%float /\
    frameCount g' = 1 /\
    ((birdY g = 0%float /\ birdY g' = (-2)%float) \/
     (birdY g = 315%float /\ birdY g' = 313%float)).
Proof.
  intros Hg Hw Hj. eexists. split; [apply (first_tick e g Hg Hw Hj)|].
  cbn [birdY birdDY frameCount].
  split; [split; reflexivity|].
  split; [unfold newDY; rewrite Hj; reflexivity|].
  split; [reflexivity|]. split; [reflexivity|]. split; [reflexivity|].
  destruct (inv_wait g (reachable_Inv g Hg) (proj1 Hw)) as (_ & _ & _ & _ & [E|E]);
    rewrite E; [left|right]; split; reflexivity.
Qed.

Lemma start_tick_witness :
  exists g',
    Update holdSpace main_game = Some g' /\
    PLAYING g' /\
    newDY holdSpace main_game = (-2)%float /\
    birdDY g' = (-2)%float /\
    birdY g' = (birdY main_game + -2)%float /\
    frameCount g' = 1 /\
    ((birdY main_game = 0%float /\ birdY g' = (-2)%float) \/
     (birdY main_game = 315%float /\ birdY g' = 313%float)).
Proof.
  apply (start_tick holdSpace main_game reach_main); [split|]; reflexivity.
Defined.

(** ** Draw *)

(** Every pillar is drawn twice: the sprite with its top left corner at
    [(x, y)], and again [pillarGap + pillarWidth] below. *)
Lemma Draw_pillar g p :
  In p (pillars g) ->
  In (DrawImage pillarImage
        {| tx := (0 + float64 (x p))%float; ty := (0 + float64 (y p))%float |})
     (Draw g) /\
  In (DrawImage pillarImage
        {| tx := (0 + float64 (x p) + 0)%float;
           ty := (0 + float64 (y p) + 400)%float |})
     (Draw g).
Proof.
  intros Hp.
  assert (H : forall op, In op (drawPillar p) -> In op (Draw g)).
  { intros op Hop. unfold Draw. apply in_or_app. right.
    apply in_or_app. left. apply in_flat_map. exists p. split; assumption. }
  split; apply H; unfold drawPillar; [left|right; left]; reflexivity.
Qed.

(** C8 (the code departs from it).  For the pillar of [game412], at x = 40
    with gap offset 100, the collision test takes the band from 100 to
    100 + [pillarGap] = 300 as the gap.  [Draw] puts the first sprite with its
    top edge at 100, where the band starts, and the second one with its top
    edge at 100 + [pillarGap] + [pillarWidth] = 500, not at 300. *)
Theorem Draw_pillar_offsets :
  Draw game412 =
    [Fill 75 145 201 1;
     DrawImage birdImage {| tx := 50; ty := -824 |};
     DrawImage pillarImage {| tx := 40; ty := 100 |};
     DrawImage pillarImage {| tx := 40; ty := 500 |};
     DebugPrint "Score: 0"] /\
  float64 100 = 100%float /\
  float64 (GoInt.add 100 pillarGap) = 300%float /\
  outsideGap 100 {| x := 40; y := 100 |} = false /\
  outsideGap 300 {| x := 40; y := 100 |} = false /\
  500%float <> 300%float.
Proof.
  split; [vm_compute; reflexivity|].
  split; [vm_compute; reflexivity|].
  split; [vm_compute; reflexivity|].
  split; [vm_compute; reflexivity|].
  split; [vm_compute; reflexivity|].
  apply float_eqb_neq; reflexivity.
Qed.

(** * Further properties of the game loop *)

(** ** Pillars against the frame counter *)

Lemma Timed_fresh g :
  frameCount g = 0 -> score g = 0 -> pillars g = [] -> Timed g.
Proof.
  intros Hf Hs Hp. constructor; rewrite ?Hf, ?Hs, ?Hp.
  - lia.
  - lia.
  - reflexivity.
  - constructor.
Qed.

Lemma Timed_fresh_1 (pos dy : float) :
  Timed {| birdY := pos; birdDY := dy; pillars := []; frameCount := 1;
           isGameOver := false; score := 0; started := true |}.
Proof.
  constructor; cbn [frameCount score pillars].
  - lia.
  - lia.
  - reflexivity.
  - constructor.
Qed.

Lemma spawnedAt_advance fc p :
  onTrack p -> spawnedAt fc p -> spawnedAt (fc + 1) (advance p).
Proof.
  intros Hp (k & Hk & Hle & Hx). exists k.
  rewrite advance_x.
  - change (screenWidth / pillarSpeed) with 213 in *.
    unfold screenWidth, pillarSpeed in *. lia.
  - unfold onTrack, GoInt.minInt, GoInt.maxInt, pillarWidth, pillarSpeed, screenWidth in *.
    lia.
Qed.

Lemma spawnedAt_new e g :
  0 <= frameCount g < GoInt.maxInt -> spawns g = true ->
  spawnedAt (frameCount g + 1) (advance (NewPillar e)).
Proof.
  intros Hf Hs. rewrite (spawns_mod g Hf) in Hs. apply Z.eqb_eq in Hs.
  exists ((frameCount g + 1) / 213).
  assert (Hd := Z.div_mod (frameCount g + 1) 213 ltac:(lia)).
  change (screenWidth / pillarSpeed) with 213.
  change (x (advance (NewPillar e))) with 637.
  unfold screenWidth, pillarSpeed. lia.
Qed.

Lemma moved_length e g :
  List.length (moved e g) =
    (List.length (pillars g) + (if spawns g then 1 else 0))%nat.
Proof.
  unfold moved, spawned. rewrite length_map.
  destruct (spawns g); [rewrite length_app; reflexivity|lia].
Qed.

Lemma crossings_le_length e g : (crossings e g <= List.length (moved e g))%nat.
Proof. apply filter_length_le. Qed.

Lemma moved_spawnedAt e g :
  reachable g -> Timed g -> frameCount g < GoInt.maxInt ->
  Forall (spawnedAt (frameCount g + 1)) (moved e g).
Proof.
  intros Hg [Hf0 _ _ Hwhere] Hlt.
  destruct (reachable_Inv g Hg) as [_ Ht _ _ _ _].
  unfold moved, spawned.
  assert (Hold : Forall (spawnedAt (frameCount g + 1)) (map advance (pillars g))).
  { apply Forall_map. rewrite Forall_forall in *. intros p Hp.
    apply spawnedAt_advance; auto. }
  destruct (spawns g) eqn:Es; [|exact Hold].
  rewrite map_app. apply Forall_app. split; [exact Hold|].
  repeat constructor. apply spawnedAt_new; [lia|exact Es].
Qed.

Lemma Timed_played e g :
  rand_ok e -> reachable g -> Timed g -> frameCount g < GoInt.maxInt ->
  Timed (played e g) /\ frameCount (played e g) = frameCount g + 1.
Proof.
  intros Hr Hg [Hf0 Hs0 Hcount Hwhere] Hlt.
  destruct (reachable_Inv g Hg) as [Hs Ht Hsc Hfc _ _].
  assert (Hfc' : newFrame g = frameCount g + 1) by (apply newFrame_exact; assumption).
  assert (Hk := crossings_le_1 e g Hr Hs Ht).
  assert (Hkl := crossings_le_length e g).
  assert (Hml := moved_length e g).
  assert (Hdiv : frameCount g / 213 <= frameCount g).
  { apply Z.div_le_upper_bound; lia. }
  change (screenWidth / pillarSpeed) with 213 in Hcount.
  assert (Hbump : bump (crossings e g) (score g) = score g + Z.of_nat (crossings e g)).
  { apply bump_exact; [assumption|]. lia. }
  split; [|exact Hfc'].
  constructor; cbn [played frameCount score pillars]; rewrite ?Hfc', ?Hbump.
  - lia.
  - lia.
  - change (screenWidth / pillarSpeed) with 213.
    rewrite length_skipn, Hml.
    assert (Hstep := div_step (frameCount g) Hf0).
    rewrite <- spawns_mod in Hstep by lia.
    destruct (spawns g); lia.
  - apply Forall_skipn. apply moved_spawnedAt; [exact Hg| |exact Hlt].
    constructor; assumption.
Qed.

(** One tick keeps [Timed] and moves the frame counter up by at most one. *)
Lemma Timed_Update e g g' :
  rand_ok e -> reachable g -> Timed g -> frameCount g < GoInt.maxInt ->
  Update e g = Some g' ->
  Timed g' /\ frameCount g' <= frameCount g + 1.
Proof.
  intros Hr Hg Ht Hlt Hu.
  assert (HR : Timed (Reset g) /\ frameCount (Reset g) <= frameCount g + 1).
  { split; [apply Timed_fresh; reflexivity|]. cbn. destruct Ht. lia. }
  destruct (isGameOver g) eqn:Eo.
  - rewrite (Update_OVER e g Eo) in Hu. injection Hu as <-.
    unfold restart. rewrite Eo. cbn [andb].
    destruct (IsKeyPressed e KeyEnter); [exact HR|]. split; [exact Ht|lia].
  - destruct (started g) eqn:Es.
    + assert (Hp : PLAYING g) by (split; assumption).
      destruct (Timed_played e g Hr Hg Ht Hlt) as [Ht' Hf'].
      rewrite (Update_PLAYING e g Hp), (restart_played e g Hp) in Hu.
      injection Hu as <-.
      destruct (collision e g && IsKeyPressed e KeyEnter); [exact HR|].
      split; [exact Ht'|lia].
    + assert (Hw : WAITING g) by (split; assumption).
      destruct (jump e) eqn:Ej.
      * rewrite (first_tick e g Hg Hw Ej) in Hu. injection Hu as <-.
        destruct (inv_wait g (reachable_Inv g Hg) Es) as (_ & Efc & _).
        cbn [frameCount]. split; [|lia].
        apply Timed_fresh_1.
      * rewrite (Update_WAITING_idle e g Hw Ej) in Hu. injection Hu as <-.
        split; [exact Ht|lia].
Qed.

Lemma Timed_run : forall es g g',
  Forall rand_ok es -> reachable g -> Timed g ->
  frameCount g + Z.of_nat (List.length es) <= GoInt.maxInt ->
  run es g = Some g' ->
  Timed g' /\ frameCount g' <= frameCount g + Z.of_nat (List.length es).
Proof.
  induction es as [|e es IH]; intros g g' Hes Hg Ht Hmax Hrun.
  - injection Hrun as <-. split; [exact Ht|simpl; lia].
  - inversion Hes as [|? ? He Hes']; subst.
    cbn [run] in Hrun. destruct (Update e g) as [g1|] eqn:Eu; [|discriminate].
    cbn [List.length] in Hmax.
    destruct (Timed_Update e g g1 He Hg Ht ltac:(lia) Eu) as [Ht1 Hf1].
    assert (Hg1 : reachable g1) by (eapply reach_tick; eassumption).
    destruct (IH g1 g' Hes' Hg1 Ht1 ltac:(lia) Hrun) as [Ht' Hf'].
    split; [exact Ht'|]. cbn [List.length]. lia.
Qed.

Lemma Timed_main : Timed main_game.
Proof. apply Timed_fresh; reflexivity. Qed.

Lemma reachable_game493 : reachable game493.
Proof. by_run (map pilot (seq 1 493)). apply pilot_rand_ok. Qed.

Lemma run_main es g :
  Forall rand_ok es -> Z.of_nat (List.length es) <= GoInt.maxInt ->
  run es main_game = Some g ->
  reachable g /\ Timed g /\ frameCount g <= Z.of_nat (List.length es).
Proof.
  intros Hes Hlen Hrun. split.
  - exact (run_reachable es main_game g reach_main Hes Hrun).
  - exact (Timed_run es main_game g Hes reach_main Timed_main Hlen Hrun).
Qed.

(** ** The slice expression is always in bounds *)

(** X1.  From any state and under any inputs, any number of ticks runs to the end:
    [g.pillars = g.pillars[1:]] is never evaluated on an empty [g.pillars],
    also when the pillars are out of order or already past the left edge. *)
Theorem run_never_panics : forall es g, exists g', run es g = Some g'.
Proof.
  induction es as [|e es IH]; intros g.
  - exists g. reflexivity.
  - destruct (Update_total e g) as [g1 Hu].
    destruct (IH g1) as [g' Hrun].
    exists g'. cbn [run]. rewrite Hu. exact Hrun.
Qed.

(** ** The states that wait for a key *)

(** X2.  While the game waits for the first jump, ticks without Space or ArrowUp
    change nothing, whatever else is held; once the game is over, ticks without
    Enter change nothing: bird, pillars, score and frame counter are frozen,
    and Space or ArrowUp do not start a new game. *)
Theorem idle_runs es g :
  (WAITING g /\ Forall (fun e => jump e = false) es) \/
  (OVER g /\ Forall (fun e => IsKeyPressed e KeyEnter = false) es) ->
  run es g = Some g.
Proof.
  intros H. induction es as [|e es IH]; [reflexivity|].
  cbn [run]. destruct H as [[Hw Hes]|[Ho Hes]];
    inversion Hes as [|? ? He Hes']; subst.
  - rewrite (Update_WAITING_idle e g Hw He). apply IH. left. split; assumption.
  - rewrite (Update_OVER e g Ho). unfold restart. unfold OVER in Ho.
    rewrite Ho, He. apply IH. right. split; assumption.
Qed.

Lemma idle_runs_witness :
  run [holdSpace; holdSpace; host false true false 5] game413 = Some game413.
Proof.
  apply (idle_runs [holdSpace; holdSpace; host false true false 5] game413).
  right. split; [reflexivity|]. repeat constructor.
Defined.

(** ** The transitions of the machine *)

(** X3.  From a reachable state one tick makes only these transitions: WAITING
    stays WAITING without a jump and becomes PLAYING with one; PLAYING stays
    PLAYING, or becomes OVER, or (a collision with Enter held) WAITING; OVER
    stays OVER without Enter and becomes WAITING with it.  In particular a
    game is never over after the tick that starts it, and never starts
    playing in the tick that leaves OVER. *)
Theorem transitions e g g' :
  reachable g -> Update e g = Some g' ->
  (WAITING g -> (jump e = false /\ g' = g) \/ (jump e = true /\ PLAYING g')) /\
  (PLAYING g -> PLAYING g' \/ (OVER g' /\ started g' = true) \/ WAITING g') /\
  (OVER g ->
   (IsKeyPressed e KeyEnter = false /\ g' = g) \/
   (IsKeyPressed e KeyEnter = true /\ WAITING g')).
Proof.
  intros Hg Hu. split; [|split].
  - intros Hw. destruct (jump e) eqn:Ej.
    + right. split; [reflexivity|].
      rewrite (first_tick e g Hg Hw Ej) in Hu. injection Hu as <-.
      split; reflexivity.
    + left. split; [reflexivity|].
      rewrite (Update_WAITING_idle e g Hw Ej) in Hu. congruence.
  - intros Hp.
    rewrite (Update_PLAYING e g Hp), (restart_played e g Hp) in Hu.
    injection Hu as <-.
    destruct (collision e g) eqn:Ec; cbn [andb].
    + destruct (IsKeyPressed e KeyEnter).
      * right. right. split; reflexivity.
      * right. left. unfold OVER. cbn [played isGameOver started].
        rewrite Ec, orb_true_r. split; [reflexivity|exact (proj1 Hp)].
    + left. unfold PLAYING. cbn [played isGameOver started].
      rewrite Ec, (proj1 Hp), (proj2 Hp). split; reflexivity.
  - intros Ho. rewrite (Update_OVER e g Ho) in Hu. injection Hu as <-.
    unfold restart. unfold OVER in Ho. rewrite Ho. cbn [andb].
    destruct (IsKeyPressed e KeyEnter).
    + right. split; [reflexivity|]. split; reflexivity.
    + left. split; reflexivity.
Qed.

Lemma transitions_witness :
  PLAYING game412 /\ OVER game413 /\ started game413 = true.
Proof.
  assert (Hu : Update holdSpace game412 = Some game413) by (vm_compute; reflexivity).
  destruct (transitions holdSpace game412 game413 reachable_game412 Hu)
    as (_ & Hp & _).
  assert (P : PLAYING game412) by (split; reflexivity).
  destruct (Hp P) as [[_ H]|[[Ho Hs]|[H _]]]; [discriminate H| |discriminate H].
  split; [exact P|]. split; assumption.
Defined.

(** ** Where the pillars are *)

Lemma advance_onTrack p :
  onTrack p -> advance p = {| x := x p - pillarSpeed; y := y p |}.
Proof.
  intros Hp. unfold advance. f_equal. fold (x (advance p)). apply advance_x.
  unfold onTrack, GoInt.minInt, GoInt.maxInt, pillarWidth, pillarSpeed, screenWidth in *.
  lia.
Qed.

(** X4.  In a tick that starts in PLAYING and does not end in a reset, every
    pillar of the new sequence is a pillar of the old one moved left by
    exactly [pillarSpeed] with its gap offset unchanged, or the pillar just
    spawned, one step left of the right edge; and every old pillar that is
    not past the left edge after the move is still there. *)
Theorem pillars_advance e g g' :
  rand_ok e -> reachable g -> PLAYING g ->
  Update e g = Some g' -> started g' = true ->
  (forall q, In q (pillars g') ->
     (exists p, In p (pillars g) /\ x q = x p - pillarSpeed /\ y q = y p) \/
     (spawns g = true /\
      q = {| x := screenWidth - pillarSpeed; y := y (NewPillar e) |})) /\
  (forall p, In p (pillars g) -> - pillarWidth <= x p - pillarSpeed ->
     In {| x := x p - pillarSpeed; y := y p |} (pillars g')).
Proof.
  intros Hr Hg Hp Hu Hst.
  destruct (reachable_Inv g Hg) as [_ Ht _ _ _ _].
  rewrite Forall_forall in Ht.
  rewrite (Update_PLAYING e g Hp), (restart_played e g Hp) in Hu.
  injection Hu as <-.
  destruct (collision e g && IsKeyPressed e KeyEnter); [discriminate Hst|].
  rewrite (played_pillars e g Hr Hg). split.
  - intros q Hq. apply in_app_or in Hq. destruct Hq as [Hq|Hq].
    + left. apply filter_In in Hq. destruct Hq as [Hq _].
      apply in_map_iff in Hq. destruct Hq as (p & <- & Hin).
      exists p. split; [exact Hin|].
      rewrite (advance_onTrack p (Ht p Hin)). split; reflexivity.
    + right. destruct (spawns g); [|destruct Hq].
      destruct Hq as [<-|[]]. split; reflexivity.
  - intros p Hin Hx. apply in_or_app. left. apply filter_In. split.
    + rewrite <- (advance_onTrack p (Ht p Hin)). apply in_map. exact Hin.
    + unfold passed. cbn [x]. apply negb_true_iff, Z.ltb_ge. exact Hx.
Qed.

Lemma pillars_advance_witness :
  In {| x := 436; y := 100 |} (pillars game493).
Proof.
  assert (Hu : Update (pilot 493) game492 = Some game493) by (vm_compute; reflexivity).
  destruct (pillars_advance (pilot 493) game492 game493
              (host_rand_ok _ _ _ _) reachable_game492) as [_ Hkeep].
  - split; reflexivity.
  - exact Hu.
  - reflexivity.
  - apply (Hkeep {| x := 439; y := 100 |}).
    + right. left. reflexivity.
    + vm_compute. discriminate.
Defined.

(** X5.  In every reachable state, and for every window size handed to [Layout],
    each pillar of the sequence overlaps the canvas [Layout] reports
    horizontally (it starts left of the right edge and has not gone wholly
    past the left edge) and its gap band lies within the canvas height. *)
Theorem pillars_on_canvas g outsideWidth outsideHeight :
  reachable g ->
  Forall (fun p =>
            x p < fst (Layout g outsideWidth outsideHeight) /\
            0 <= x p + pillarWidth /\
            0 <= y p /\
            y p + pillarGap <= snd (Layout g outsideWidth outsideHeight))
         (pillars g).
Proof.
  intros Hg. destruct (reachable_Inv g Hg) as [_ Ht _ _ _ _].
  eapply Forall_impl; [|exact Ht].
  intros p [Hx Hy]. cbn [Layout fst snd].
  unfold screenWidth, screenHeight, pillarWidth, pillarGap, pillarSpeed in *. lia.
Qed.

Lemma pillars_on_canvas_witness :
  Forall (fun p =>
            x p < fst (Layout game492 1920 1080) /\
            0 <= x p + pillarWidth /\
            0 <= y p /\
            y p + pillarGap <= snd (Layout game492 1920 1080))
         (pillars game492).
Proof.
  exact (pillars_on_canvas game492 1920 1080 reachable_game492).
Defined.

(** X6.  Over any run from the game [main] builds (shorter than the range of the
    frame counter) the sequence never holds more than two pillars, and two
    pillars stand exactly 213 steps of [pillarSpeed], 639, apart. *)
Theorem at_most_two_pillars es g :
  Forall rand_ok es -> Z.of_nat (List.length es) <= GoInt.maxInt ->
  run es main_game = Some g ->
  (List.length (pillars g) <= 2)%nat /\
  (forall p q, pillars g = [p; q] ->
     x q = x p + pillarSpeed * (screenWidth / pillarSpeed)).
Proof.
  intros Hes Hlen Hrun.
  destruct (run_main es g Hes Hlen Hrun) as (Hg & [_ _ _ Hw] & _).
  destruct (reachable_Inv g Hg) as [Hs Ht _ _ _ _].
  change (screenWidth / pillarSpeed) with 213.
  unfold spawnedAt in Hw. change (screenWidth / pillarSpeed) with 213 in Hw.
  destruct (pillars g) as [|p1 [|p2 [|p3 l]]].
  - split; [simpl; lia|discriminate].
  - split; [simpl; lia|discriminate].
  - split; [simpl; lia|]. intros p q [= <- <-].
    inversion Hs as [|? ? _ H12]; subst.
    inversion H12 as [|? ? H12' _]; subst.
    inversion Ht as [|? ? [Hx1 _] Ht2]; subst.
    inversion Ht2 as [|? ? [Hx2 _] _]; subst.
    inversion Hw as [|? ? (k1 & _ & _ & E1) Hw2]; subst.
    inversion Hw2 as [|? ? (k2 & _ & _ & E2) _]; subst.
    unfold spaced, pillarWidth, pillarSpeed, screenWidth in *. lia.
  - exfalso.
    inversion Hs as [|? ? Hs2 H1]; subst.
    inversion Hs2 as [|? ? _ H2]; subst.
    inversion H1 as [|? ? H12 _]; subst.
    inversion H2 as [|? ? H23 _]; subst.
    inversion Ht as [|? ? [Hx1 _] Ht2]; subst.
    inversion Ht2 as [|? ? _ Ht3]; subst.
    inversion Ht3 as [|? ? [Hx3 _] _]; subst.
    inversion Hw as [|? ? (k1 & _ & _ & E1) Hw2]; subst.
    inversion Hw2 as [|? ? (k2 & _ & _ & E2) Hw3]; subst.
    inversion Hw3 as [|? ? (k3 & _ & _ & E3) _]; subst.
    unfold spaced, pillarWidth, pillarSpeed, screenWidth in *. lia.
Qed.

Lemma at_most_two_pillars_witness :
  (List.length (pillars game492) <= 2)%nat /\
  (forall p q, pillars game492 = [p; q] ->
     x q = x p + pillarSpeed * (screenWidth / pillarSpeed)).
Proof.
  apply (at_most_two_pillars (map pilot (seq 1 492)) game492).
  - apply pilot_rand_ok.
  - vm_compute. discriminate.
  - vm_compute. reflexivity.
Defined.

(** ** The score against the frame counter *)

(** X7.  Over any run from the game [main] builds (shorter than the range of the
    frame counter) every pillar spawned so far is either still in the
    sequence or counted once in the score: the score plus the number of
    pillars is the frame count divided by 213.  The score is never negative
    and the frame count never exceeds the number of ticks run. *)
Theorem score_conservation es g :
  Forall rand_ok es -> Z.of_nat (List.length es) <= GoInt.maxInt ->
  run es main_game = Some g ->
  score g + Z.of_nat (List.length (pillars g))
    = frameCount g / (screenWidth / pillarSpeed) /\
  0 <= score g /\
  0 <= frameCount g <= Z.of_nat (List.length es).
Proof.
  intros Hes Hlen Hrun.
  destruct (run_main es g Hes Hlen Hrun) as (_ & [Hf Hs Hc _] & Hle).
  split; [exact Hc|]. split; [exact Hs|]. split; assumption.
Qed.

Lemma score_conservation_witness :
  score game493 + Z.of_nat (List.length (pillars game493))
    = frameCount game493 / (screenWidth / pillarSpeed) /\
  0 <= score game493 /\
  0 <= frameCount game493 <= Z.of_nat (List.length (map pilot (seq 1 493))).
Proof.
  apply (score_conservation (map pilot (seq 1 493)) game493).
  - apply pilot_rand_ok.
  - vm_compute. discriminate.
  - vm_compute. reflexivity.
Defined.

(** ** The first 412 frames *)

Lemma early_no_collision e g :
  reachable g -> Timed g -> frameCount g < 412 -> collision e g = false.
Proof.
  intros Hg Ht Hlt.
  assert (Hm := moved_spawnedAt e g Hg Ht ltac:(unfold GoInt.maxInt; lia)).
  unfold collision. rewrite <- not_true_iff_false, existsb_exists.
  intros (q & Hq & Hh). rewrite Forall_forall in Hm.
  destruct (Hm q Hq) as (k & Hk & _ & Hx).
  apply hit_spec in Hh. destruct Hh as [_ Hcol].
  change (screenWidth / pillarSpeed) with 213 in Hx.
  unfold screenWidth, pillarSpeed, pillarWidth, birdSize in *. lia.
Qed.

Lemma early_tick e g :
  rand_ok e -> reachable g -> Timed g -> isGameOver g = false ->
  frameCount g < 412 ->
  exists g',
    Update e g = Some g' /\ isGameOver g' = false /\
    Timed g' /\ frameCount g' <= frameCount g + 1.
Proof.
  intros Hr Hg Ht Ho Hlt.
  destruct (Update_total e g) as [g' Hu]. exists g'.
  destruct (Timed_Update e g g' Hr Hg Ht ltac:(unfold GoInt.maxInt; lia) Hu)
    as [Ht' Hf'].
  split; [exact Hu|]. split; [|split; assumption].
  destruct (started g) eqn:Es.
  - assert (Hp : PLAYING g) by (split; assumption).
    rewrite (Update_PLAYING e g Hp), (restart_played e g Hp) in Hu.
    rewrite (early_no_collision e g Hg Ht Hlt) in Hu. cbn [andb] in Hu.
    injection Hu as <-. cbn [played isGameOver].
    rewrite Ho, (early_no_collision e g Hg Ht Hlt). reflexivity.
  - assert (Hw : WAITING g) by (split; assumption).
    destruct (jump e) eqn:Ej.
    + rewrite (first_tick e g Hg Hw Ej) in Hu. injection Hu as <-. reflexivity.
    + rewrite (Update_WAITING_idle e g Hw Ej) in Hu. injection Hu as <-. exact Ho.
Qed.

Lemma early_run : forall es g,
  Forall rand_ok es -> reachable g -> Timed g -> isGameOver g = false ->
  frameCount g + Z.of_nat (List.length es) <= 412 ->
  exists g', run es g = Some g' /\ isGameOver g' = false.
Proof.
  induction es as [|e es IH]; intros g Hes Hg Ht Ho Hlen.
  - exists g. split; [reflexivity|exact Ho].
  - inversion Hes as [|? ? He Hes']; subst. cbn [List.length] in Hlen.
    destruct (early_tick e g He Hg Ht Ho ltac:(lia)) as (g1 & Hu & Ho1 & Ht1 & Hf1).
    assert (Hg1 : reachable g1) by (eapply reach_tick; eassumption).
    destruct (IH g1 Hes' Hg1 Ht1 Ho1 ltac:(lia)) as (g' & Hrun & Ho').
    exists g'. cbn [run]. rewrite Hu. split; assumption.
Qed.

(** X8.  Whatever the player does and wherever the bird flies, a game cannot be
    lost in the 412 ticks after a WAITING state (the game [main] builds, or a
    game just reset): the first pillar is spawned at frame 213 and reaches the
    bird's column at frame 413.  The bound is sharp: holding Space for 413
    ticks loses the first game. *)
Theorem no_game_over_before_413 es g :
  reachable g -> WAITING g -> Forall rand_ok es -> (List.length es <= 412)%nat ->
  (exists g', run es g = Some g' /\ isGameOver g' = false) /\
  run (repeat holdSpace 413) main_game = Some game413 /\
  isGameOver game413 = true.
Proof.
  intros Hg Hw Hes Hlen. split; [|split; vm_compute; reflexivity].
  destruct (inv_wait g (reachable_Inv g Hg) (proj1 Hw)) as (Ep & Ef & Es & _).
  apply early_run.
  - exact Hes.
  - exact Hg.
  - apply Timed_fresh; assumption.
  - exact (proj2 Hw).
  - rewrite Ef. lia.
Qed.

Lemma no_game_over_before_413_witness :
  exists g', run (repeat holdSpace 412) main_game = Some g' /\ isGameOver g' = false.
Proof.
  apply (no_game_over_before_413 (repeat holdSpace 412) main_game reach_main).
  - split; reflexivity.
  - apply holdSpace_ok.
  - rewrite repeat_length. apply Nat.le_refl.
Defined.

(** ** What a game-over state shows *)

(** X9.  In every reachable state with the game-over flag set, the pillar the bird
    ran into is still in the sequence, standing in the bird's column, and the
    bird's position is outside its gap: the state keeps the collision that
    ended the game until it is reset. *)
Theorem game_over_keeps_collision g :
  reachable g -> isGameOver g = true ->
  exists p, In p (pillars g) /\
    - pillarWidth < x p < birdSize /\
    ((birdY g <? float64 (y p))%float = true \/
     (float64 (GoInt.add (y p) pillarGap) <? birdY g)%float = true).
Proof.
  induction 1 as [|e g g' Hg IH Hr Hu]; intros Ho'; [discriminate Ho'|].
  destruct (isGameOver g) eqn:Eo.
  - rewrite (Update_OVER e g Eo) in Hu. injection Hu as <-.
    unfold restart in *. rewrite Eo in *. cbn [andb] in *.
    destruct (IsKeyPressed e KeyEnter); [discriminate Ho'|]. apply IH. reflexivity.
  - destruct (started g) eqn:Es.
    + assert (Hp : PLAYING g) by (split; assumption).
      rewrite (Update_PLAYING e g Hp), (restart_played e g Hp) in Hu.
      injection Hu as <-.
      destruct (collision e g && IsKeyPressed e KeyEnter); [discriminate Ho'|].
      cbn [played isGameOver] in Ho'. rewrite Eo in Ho'. cbn [orb] in Ho'.
      unfold collision in Ho'. apply existsb_exists in Ho'.
      destruct Ho' as (q & Hq & Hh). apply hit_spec in Hh. destruct Hh as [Hout Hcol].
      exists q. split; [|split; [exact Hcol|exact Hout]].
      destruct (reachable_Inv g Hg) as [Hs Ht _ _ _ _].
      cbn [played pillars]. rewrite (proj2 (moved_split e g Hr Hs Ht)).
      apply filter_In. split; [exact Hq|].
      unfold passed. apply negb_true_iff, Z.ltb_ge. lia.
    + assert (Hw : WAITING g) by (split; assumption).
      destruct (jump e) eqn:Ej.
      * rewrite (first_tick e g Hg Hw Ej) in Hu. injection Hu as <-. discriminate Ho'.
      * rewrite (Update_WAITING_idle e g Hw Ej) in Hu. injection Hu as <-. congruence.
Qed.

Lemma game_over_keeps_collision_witness :
  exists p, In p (pillars game413) /\
    - pillarWidth < x p < birdSize /\
    ((birdY game413 <? float64 (y p))%float = true \/
     (float64 (GoInt.add (y p) pillarGap) <? birdY game413)%float = true).
Proof.
  apply (game_over_keeps_collision game413 reachable_game413). reflexivity.
Defined.

(** ** The prompts of Draw *)

Lemma In_Draw_prompt msg g :
  In (DebugPrint msg) (Draw g) <->
  msg = ("Score: " ++ NilZero.string_of_int (Z.to_int (score g)))%string \/
  (started g = false /\ DebugPrint msg = startPrompt) \/
  (isGameOver g = true /\ DebugPrint msg = overPrompt).
Proof.
  unfold Draw. rewrite !in_app_iff, in_flat_map. split.
  - intros [H|[H|[H|[H|H]]]].
    + destruct H as [H|[H|[]]]; discriminate H.
    + destruct H as (p & _ & [H|[H|[]]]); discriminate H.
    + destruct H as [H|[]]. left. injection H as <-. reflexivity.
    + destruct (started g); [destruct H|]. destruct H as [H|[]].
      right. left. split; [reflexivity|]. symmetry. exact H.
    + destruct (isGameOver g); [|destruct H]. destruct H as [H|[]].
      right. right. split; [reflexivity|]. symmetry. exact H.
  - intros [H|[[Hs H]|[Ho H]]].
    + right. right. left. left. rewrite H. reflexivity.
    + right. right. right. left. rewrite Hs. left. symmetry. exact H.
    + right. right. right. right. rewrite Ho. left. symmetry. exact H.
Qed.

(** X10.  [Draw] prints the start prompt exactly when the game has not started and
    the game-over prompt exactly when the game is over; on a reachable state
    it never prints both over each other. *)
Theorem Draw_prompts g :
  reachable g ->
  (In startPrompt (Draw g) <-> started g = false) /\
  (In overPrompt (Draw g) <-> isGameOver g = true) /\
  ~ (In startPrompt (Draw g) /\ In overPrompt (Draw g)).
Proof.
  intros Hg.
  assert (H1 : In startPrompt (Draw g) <-> started g = false).
  { unfold startPrompt. rewrite In_Draw_prompt. split.
    - intros [H|[[H _]|[_ H]]]; [discriminate H|exact H|discriminate H].
    - intros H. right. left. split; [exact H|reflexivity]. }
  assert (H2 : In overPrompt (Draw g) <-> isGameOver g = true).
  { unfold overPrompt. rewrite In_Draw_prompt. split.
    - intros [H|[[_ H]|[H _]]]; [discriminate H|discriminate H|exact H].
    - intros H. right. right. split; [exact H|reflexivity]. }
  split; [exact H1|]. split; [exact H2|].
  rewrite H1, H2. intros [Hs Ho].
  rewrite (inv_over g (reachable_Inv g Hg) Ho) in Hs. discriminate Hs.
Qed.

Lemma Draw_prompts_witness :
  In overPrompt (Draw game413) /\ ~ In startPrompt (Draw game413).
Proof.
  destruct (Draw_prompts game413 reachable_game413) as (H1 & H2 & _).
  split.
  - apply H2. reflexivity.
  - intros H. apply H1 in H. discriminate H.
Defined.

(** ** What a tick reads of the host *)

Lemma NewPillar_ext e1 e2 :
  Intn e1 (screenHeight - pillarGap - pillarWidth)
    = Intn e2 (screenHeight - pillarGap - pillarWidth) ->
  NewPillar e1 = NewPillar e2.
Proof. intros H. unfold NewPillar. rewrite H. reflexivity. Qed.

Lemma played_ext e1 e2 g :
  jump e1 = jump e2 ->
  (spawns g = true ->
   Intn e1 (screenHeight - pillarGap - pillarWidth)
     = Intn e2 (screenHeight - pillarGap - pillarWidth)) ->
  played e1 g = played e2 g.
Proof.
  intros Hj Hn.
  assert (Hdy : newDY e1 g = newDY e2 g) by (unfold newDY; rewrite Hj; reflexivity).
  assert (Hy : newY e1 g = newY e2 g) by (unfold newY; rewrite Hdy; reflexivity).
  assert (Hs : spawned e1 g = spawned e2 g).
  { unfold spawned. destruct (spawns g); [|reflexivity].
    rewrite (NewPillar_ext e1 e2 (Hn eq_refl)). reflexivity. }
  unfold played, collision, crossings, moved. rewrite Hdy, Hy, Hs. reflexivity.
Qed.

(** X11.  A tick reads the host only through three things: whether Space or
    ArrowUp is held (either key, or both, count the same), whether Enter is
    held, and the value of [rand.Intn(230)], the latter only in a tick whose
    new frame count is a multiple of 213.  Two hosts that agree on these give
    the same state. *)
Theorem Update_reads e1 e2 g :
  jump e1 = jump e2 ->
  IsKeyPressed e1 KeyEnter = IsKeyPressed e2 KeyEnter ->
  (spawns g = true ->
   Intn e1 (screenHeight - pillarGap - pillarWidth)
     = Intn e2 (screenHeight - pillarGap - pillarWidth)) ->
  Update e1 g = Update e2 g.
Proof.
  intros Hj Hk Hn.
  assert (Hst : start e1 g = start e2 g) by (unfold start; rewrite Hj; reflexivity).
  assert (Hsp : spawns (start e2 g) = spawns g).
  { unfold start. destruct (negb (isGameOver g) && negb (started g)); [|reflexivity].
    destruct (jump e2); reflexivity. }
  unfold Update. rewrite Hst.
  destruct (started (start e2 g) && negb (isGameOver (start e2 g))).
  - rewrite !playing_played.
    rewrite (played_ext e1 e2 (start e2 g) Hj) by (rewrite Hsp; exact Hn).
    unfold restart. rewrite Hk. reflexivity.
  - unfold restart. rewrite Hk. reflexivity.
Qed.

Lemma Update_reads_witness :
  Update (host true false false 7) game212 = Update (host true true false 237) game212.
Proof.
  apply (Update_reads (host true false false 7) (host true true false 237) game212);
    reflexivity.
Defined.
